(** * Discrete natural-neighbour interpolation: a model of
      [naturalneighbor/cnaturalneighbor.cpp]

    The development embeds [clamp] and [cnaturalneighbor_griddata] as Rocq
    functions and proves properties of the grid traversal, the
    region-of-interest scan, the accumulation writes and the normalisation
    pass.

    Modelling conventions.
    - [std::size_t] values are integers in [Z] reduced modulo [2^64] after
      every operation ([wrap]); [int] is the 32-bit signed range.
    - [double] values are exact rationals ([Q]): rounding is not modelled, a
      [size_t] converted to [double] keeps its value, and a [double] that
      does not fit the target [int] is a fault.
    - The two output arrays are flat lists of cells (C-contiguous storage,
      as the code assumes when it takes the address of element 0); reading
      or writing past the end of a list is a fault.
    - A call either returns the final buffers or faults; the state carries a
      ghost [trace] of the writes performed, most recent first. *)

From Stdlib Require Import ZArith QArith Qround Lia Lqa.
From stdpp Require Import base tactics option list list_numbers sorting.

Local Open Scope Z_scope.

(** ** Machine integers *)

Definition SIZE_MAX : Z := 2 ^ 64 - 1.
Definition INT_MAX : Z := 2 ^ 31 - 1.

(** Arithmetic on [std::size_t] is modulo [2^64]. *)
Definition wrap (z : Z) : Z := z mod 2 ^ 64.

(** [std::size_t clamp(std::size_t val, std::size_t min, std::size_t max)] *)
Definition clamp (val min max : Z) : Z :=
  if val <? min then min
  else if val >? max then max
  else val.

(** ** Outcomes of a call *)

Inductive fault : Type :=
  | NoData            (* the query had no result and the code reads it *)
  | OutOfBounds       (* a buffer is read or written past its end *)
  | IntConversion.    (* a double outside the range of [int] is converted *)

Inductive outcome (A : Type) : Type :=
  | Returned (a : A)
  | Fault (why : fault).
Arguments Returned {A} a.
Arguments Fault {A} why.

#[global] Instance outcome_ret : MRet outcome := λ A a, Returned a.
#[global] Instance outcome_bind : MBind outcome := λ A B f m,
  match m with
  | Returned a => f a
  | Fault why => Fault why
  end.

(** [for (x : l) body] with the state threaded through and faults
    propagated. *)
Fixpoint for_each {A S : Type} (l : list A) (body : A → S → outcome S)
    (st : S) : outcome S :=
  match l with
  | [] => Returned st
  | a :: l' => st' ← body a st; for_each l' body st'
  end.

(** [for (std::size_t x = 0; x < n; x++)] *)
Definition for_below {S : Type} (n : Z) : (Z → S → outcome S) → S → outcome S :=
  for_each (seqZ 0 n).

(** [for (std::size_t x = lo; x <= hi; x++)], for [hi < SIZE_MAX]. *)
Definition for_upto {S : Type} (lo hi : Z)
  : (Z → S → outcome S) → S → outcome S :=
  for_each (seqZ lo (hi + 1 - lo)).

(** ** Points ([geometry.h]) *)

(** Modelled from the spec: [geometry::Point<double, 3>] of [geometry.h],
    which is not among the sources: three ordered real coordinates, built
    from three scalars, with the squared Euclidean distance as the sum of
    the squared per-axis differences. *)
Record Point : Type := mkPoint { px : Q; py : Q; pz : Q }.

Definition coord (axis : nat) (p : Point) : Q :=
  match axis with
  | O => px p
  | S O => py p
  | _ => pz p
  end.

Definition distance_sq (a b : Point) : Q :=
  ((px a - px b) * (px a - px b)
   + (py a - py b) * (py a - py b)
   + (pz a - pz b) * (pz a - pz b))%Q.

(** ** Spatial index ([kdtree.h]) *)

(** What a nearest-neighbour query hands back: the code reads [->distance]
    and [->value] of it. *)
Record neighbor : Type := mkNeighbor {
  nn_point : Point;
  nn_value : Q;
  nn_distance : Q
}.

Inductive kdnode : Type :=
  | Leaf
  | Node (pt : Point) (val : Q) (axis : nat) (lo hi : kdnode).

Record kdtree : Type := mkTree {
  m_nodes : list (Point * Q);
  m_root : kdnode
}.

Definition kdtree_new : kdtree := {| m_nodes := []; m_root := Leaf |}.

Definition kdtree_add (p : Point) (v : Q) (t : kdtree) : kdtree :=
  {| m_nodes := m_nodes t ++ [(p, v)]; m_root := m_root t |}.

(** Ordering of the points along one axis, used to find the median. *)
Fixpoint insert_by_axis (axis : nat) (e : Point * Q) (l : list (Point * Q))
  : list (Point * Q) :=
  match l with
  | [] => [e]
  | e' :: l' =>
      if Qle_bool (coord axis e.1) (coord axis e'.1) then e :: l
      else e' :: insert_by_axis axis e l'
  end.

Definition sort_by_axis (axis : nat) (l : list (Point * Q))
  : list (Point * Q) :=
  foldr (insert_by_axis axis) [] l.

(** Modelled from the spec: [kdtree::build] of [kdtree.h], which is not
    among the sources: the point set is partitioned recursively around its
    median along a splitting axis that cycles with the depth
    ([axis = depth mod 3]); the points before the median go to the low
    child, those after it to the high child. [fuel] bounds the depth. *)
Fixpoint build_nodes (fuel : nat) (depth : nat) (pts : list (Point * Q))
  : kdnode :=
  match fuel with
  | O => Leaf
  | S fuel' =>
      let axis := (depth mod 3)%nat in
      let sorted := sort_by_axis axis pts in
      let median := (length sorted / 2)%nat in
      match drop median sorted with
      | [] => Leaf
      | (p, v) :: above =>
          Node p v axis
            (build_nodes fuel' (S depth) (take median sorted))
            (build_nodes fuel' (S depth) above)
      end
  end.

Definition kdtree_build (t : kdtree) : kdtree :=
  {| m_nodes := m_nodes t;
     m_root := build_nodes (length (m_nodes t)) 0 (m_nodes t) |}.

(** The running best of a query: a closer point replaces it, an equally
    close one does not (first found wins). *)
Definition closer (q : Point) (p : Point) (v : Q) (best : option neighbor)
  : option neighbor :=
  let d := distance_sq q p in
  match best with
  | None => Some (mkNeighbor p v d)
  | Some b => if Qlt_le_dec d (nn_distance b) then Some (mkNeighbor p v d)
              else Some b
  end.

(** Whether the half-space beyond the plane at signed offset [delta] can be
    skipped: its distance from the query exceeds the best found so far. *)
Definition prune (delta : Q) (best : option neighbor) : bool :=
  match best with
  | None => false
  | Some b => if Qlt_le_dec (nn_distance b) (delta * delta)%Q then true
              else false
  end.

(** Modelled from the spec: the descent of [kdtree::nearest_iterative] of
    [kdtree.h], which is not among the sources: at each node the query's
    coordinate on the node's axis decides which child is visited first, the
    running best is kept, and the other child is skipped when the squared
    distance from the query to the splitting plane exceeds the best squared
    distance. *)
Fixpoint nearest_from (t : kdnode) (q : Point) (best : option neighbor)
  : option neighbor :=
  match t with
  | Leaf => best
  | Node p v axis lo hi =>
      let best1 := closer q p v best in
      let delta := (coord axis q - coord axis p)%Q in
      if Qle_bool (coord axis q) (coord axis p) then
        let best2 := nearest_from lo q best1 in
        if prune delta best2 then best2 else nearest_from hi q best2
      else
        let best2 := nearest_from hi q best1 in
        if prune delta best2 then best2 else nearest_from lo q best2
  end.

(** Modelled from the spec: [kdtree::nearest_iterative] of [kdtree.h]: the
    known point nearest to the query with its value and squared distance;
    no result ([None], a null pointer) when the index holds no point. *)
Definition nearest_iterative (t : kdtree) (q : Point) : option neighbor :=
  nearest_from (m_root t) q None.

(** Modelled from the spec: the exhaustive linear scan the index is
    compared with; it keeps the first point among the closest. *)
Definition linear_scan (pts : list (Point * Q)) (q : Point)
  : option neighbor :=
  foldl (λ best e, closer q e.1 e.2 best) None pts.

(** ** The interpolation engine *)

(** [ceil(sqrt(d))] for a non-negative [d]: the least non-negative integer
    whose square is at least [d]. *)
Definition ceil_sqrt (d : Q) : Z := Z.sqrt_up (Qceiling d).

(** An array argument: its shape (the code reads three dimensions) and its
    cells in storage order. *)
Record ndarray : Type := mkArray {
  nd_shape : Z * Z * Z;
  nd_data : list Q
}.

(** A write performed by the call (ghost state). *)
Inductive event : Type :=
  | Accum (indice : nat) (v : Q)   (* [interp_values_ptr[indice] += v] and
                                      [contribution_counter_ptr[indice] += 1] *)
  | Normalize (indice : nat).      (* [interp_values_ptr[indice] /= ...] *)

Definition event_index (e : event) : nat :=
  match e with
  | Accum n _ => n
  | Normalize n => n
  end.

(** The two buffers the call mutates, and the writes made so far, most
    recent first. *)
Record buffers : Type := mkBuffers {
  interp_values : list Q;
  contribution_counter : list Q;
  trace : list event
}.

(** [i_roi_min = clamp(i - roi_radius, 0, ni - 1)]: the subtraction is
    carried out in [std::size_t]. *)
Definition roi_min (x roi_radius n : Z) : Z :=
  clamp (wrap (x - roi_radius)) 0 (wrap (n - 1)).

(** [i_roi_max = clamp(i + roi_radius, 0, ni - 1)] *)
Definition roi_max (x roi_radius n : Z) : Z :=
  clamp (wrap (x + roi_radius)) 0 (wrap (n - 1)).

(** [(i - i_roi)*(i - i_roi)], computed in [std::size_t]. *)
Definition delta_sq (x x_roi : Z) : Z :=
  wrap (wrap (x - x_roi) * wrap (x - x_roi)).

(** [nj*nk*i + nk*j + k], computed in [std::size_t]. *)
Definition flat_index (nj nk i j k : Z) : Z :=
  wrap (wrap (wrap (wrap (nj * nk) * i) + wrap (nk * j)) + k).

(** The body of the innermost scatter [if]: both buffers are updated at
    [indice]. *)
Definition accumulate (indice : Z) (v : Q) (st : buffers) : outcome buffers :=
  let n := Z.to_nat indice in
  if decide (n < length (interp_values st)
             ∧ n < length (contribution_counter st))%nat
  then Returned
         {| interp_values := alter (λ a, a + v)%Q n (interp_values st);
            contribution_counter :=
              alter (λ c, c + 1)%Q n (contribution_counter st);
            trace := Accum n v :: trace st |}
  else Fault OutOfBounds.

(** The body of the three outer scatter loops, for the cell [(i, j, k)]. *)
Definition scatter_cell (tree : kdtree) (ni nj nk i j k : Z) (st : buffers)
  : outcome buffers :=
  let query_point := mkPoint (inject_Z i) (inject_Z j) (inject_Z k) in
  match nearest_iterative tree query_point with
  | None => Fault NoData
  | Some nearest_known_point =>
      let distance_sq_to_known_point := nn_distance nearest_known_point in
      let roi_radius := ceil_sqrt distance_sq_to_known_point in
      if INT_MAX <? roi_radius then Fault IntConversion
      else
        let i_roi_min := roi_min i roi_radius ni in
        let i_roi_max := roi_max i roi_radius ni in
        let j_roi_min := roi_min j roi_radius nj in
        let j_roi_max := roi_max j roi_radius nj in
        let k_roi_min := roi_min k roi_radius nk in
        let k_roi_max := roi_max k roi_radius nk in
        for_upto i_roi_min i_roi_max (λ i_roi,
          for_upto j_roi_min j_roi_max (λ j_roi,
            for_upto k_roi_min k_roi_max (λ k_roi st,
              let deltai_2 := inject_Z (delta_sq i i_roi) in
              let deltaj_2 := inject_Z (delta_sq j j_roi) in
              let deltak_2 := inject_Z (delta_sq k k_roi) in
              let distance_sq_to_roi_point :=
                (deltai_2 + deltaj_2 + deltak_2)%Q in
              if Qle_bool distance_sq_to_roi_point distance_sq_to_known_point
              then
                let indice := flat_index nj nk i j k in
                accumulate indice (nn_value nearest_known_point) st
              else Returned st))) st
  end.

(** The scatter loops over the whole grid. *)
Definition scatter_pass (tree : kdtree) (ni nj nk : Z)
  : buffers → outcome buffers :=
  for_below ni (λ i,
    for_below nj (λ j,
      for_below nk (λ k, scatter_cell tree ni nj nk i j k))).

(** The body of the normalisation loops. *)
Definition normalize_cell (indice : Z) (st : buffers) : outcome buffers :=
  let n := Z.to_nat indice in
  match contribution_counter st !! n with
  | None => Fault OutOfBounds
  | Some c =>
      if Qeq_bool c 0 then Returned st
      else
        match interp_values st !! n with
        | None => Fault OutOfBounds
        | Some a =>
            Returned
              {| interp_values := <[n := (a / c)%Q]> (interp_values st);
                 contribution_counter := contribution_counter st;
                 trace := Normalize n :: trace st |}
        end
  end.

(** The normalisation loops over the whole grid. *)
Definition normalize_pass (ni nj nk : Z) : buffers → outcome buffers :=
  for_below ni (λ i,
    for_below nj (λ j,
      for_below nk (λ k, normalize_cell (flat_index nj nk i j k)))).

(** The copy of the two input arrays into [known_coords_vec] and
    [known_values_vec]: one entry per row of [known_coords]. *)
Definition load_known (known_coords : list Point) (known_values : list Q)
  : outcome (list (Point * Q)) :=
  for_each (seq 0 (length known_coords))
    (λ i vec,
       match known_coords !! i, known_values !! i with
       | Some p, Some v => Returned (vec ++ [(p, v)])
       | _, _ => Fault OutOfBounds
       end) [].

(** [tree->add] for every known point, then [tree->build()]. *)
Definition index_known (known : list (Point * Q)) : kdtree :=
  kdtree_build (foldl (λ t e, kdtree_add e.1 e.2 t) kdtree_new known).

(** [cnaturalneighbor_griddata] after argument parsing: the grid extent is
    the shape of [interp_values]. *)
Definition cnaturalneighbor_griddata
    (known_coords : list Point) (known_values : list Q)
    (interp_values contribution_counter : ndarray) : outcome buffers :=
  known ← load_known known_coords known_values;
  let tree := index_known known in
  let '(ni, nj, nk) := nd_shape interp_values in
  st ← scatter_pass tree ni nj nk
         {| interp_values := nd_data interp_values;
            contribution_counter := nd_data contribution_counter;
            trace := [] |};
  normalize_pass ni nj nk st.

(** A zero-filled array of the given shape. *)
Definition zeros (ni nj nk : Z) : ndarray :=
  {| nd_shape := (ni, nj, nk);
     nd_data := replicate (Z.to_nat (ni * nj * nk)) 0%Q |}.

Definition pt (x y z : Z) : Point :=
  mkPoint (inject_Z x) (inject_Z y) (inject_Z z).


(** ** Vocabulary of the statements *)

(** What holds of an outcome: [P] of the state returned, [F] of the
    fault. *)
Definition post {S : Type} (P : S → Prop) (F : fault → Prop)
    (o : outcome S) : Prop :=
  match o with
  | Returned s => P s
  | Fault why => F why
  end.

(** A cell after normalisation, from its accumulated value and counter. *)
Definition normalized (a c : Q) : Q :=
  if Qeq_bool c 0 then a else (a / c)%Q.

(** The grid has non-negative dimensions and at most [SIZE_MAX] cells. *)
Definition grid_ok (ni nj nk : Z) : Prop :=
  0 ≤ ni ∧ 0 ≤ nj ∧ 0 ≤ nk ∧ ni * nj * nk ≤ SIZE_MAX.

(** The cell [(i, j, k)] belongs to the grid. *)
Definition in_grid (ni nj nk i j k : Z) : Prop :=
  0 ≤ i < ni ∧ 0 ≤ j < nj ∧ 0 ≤ k < nk.

(** A write that targets the flat index of a cell of the grid, inside the
    [ni*nj*nk] cells of the buffers. *)
Definition in_extent (ni nj nk : Z) (e : event) : Prop :=
  (∃ i j k, in_grid ni nj nk i j k
            ∧ event_index e = Z.to_nat (flat_index nj nk i j k))
  ∧ Z.of_nat (event_index e) < ni * nj * nk.

(** The values the scatter phase added to the cell at [idx], most recent
    first. *)
Definition added_to (idx : nat) (tr : list event) : list Q :=
  omap (λ e, match e with
             | Accum n v => if decide (n = idx) then Some v else None
             | Normalize _ => None
             end) tr.

Definition Qsum (l : list Q) : Q := foldr Qplus 0%Q l.

(** The arithmetic mean of a list of values. *)
Definition mean (l : list Q) : Q :=
  (Qsum l / inject_Z (Z.of_nat (length l)))%Q.

(** The known points stored below a node. *)
Fixpoint elements (t : kdnode) : list (Point * Q) :=
  match t with
  | Leaf => []
  | Node p v _ lo hi => (p, v) :: elements lo ++ elements hi
  end.

(** The partition invariant of the index: along the node's axis the low
    child holds no larger and the high child no smaller coordinates than
    the node. *)
Fixpoint kd_inv (t : kdnode) : Prop :=
  match t with
  | Leaf => True
  | Node p v axis lo hi =>
      (∀ e, e ∈ elements lo → (coord axis e.1 <= coord axis p)%Q)
      ∧ (∀ e, e ∈ elements hi → (coord axis p <= coord axis e.1)%Q)
      ∧ kd_inv lo ∧ kd_inv hi
  end.

(** Both buffers hold [ni*nj*nk] cells and every write so far went to the
    flat index of a cell of the grid. *)
Definition extent_inv (ni nj nk : Z) (st : buffers) : Prop :=
  length (interp_values st) = Z.to_nat (ni * nj * nk)
  ∧ length (contribution_counter st) = Z.to_nat (ni * nj * nk)
  ∧ Forall (in_extent ni nj nk) (trace st).

(** Whether the counter at [n] is non-zero, the test of the normalisation
    loop. *)
Definition nonzero_at (cnt : list Q) (n : nat) : bool :=
  match cnt !! n with
  | Some c => negb (Qeq_bool c 0)
  | None => false
  end.

(** The divisions of a normalisation pass over the cells [idxs], in the
    order of the trace (most recent first). *)
Definition normalize_events (cnt : list Q) (idxs : list nat) : list event :=
  reverse (Normalize <$> filter (λ n, Is_true (nonzero_at cnt n)) idxs).

(** The writes of the scatter phase account for the buffers: an accumulator
    is its initial value plus the values added to it, a counter its initial
    value plus the number of these values. *)
Definition scatter_inv (acc0 cnt0 : list Q) (st : buffers) : Prop :=
  length (interp_values st) = length acc0
  ∧ length (contribution_counter st) = length cnt0
  ∧ ∀ n,
      (∀ a0, acc0 !! n = Some a0 →
         ∃ a, interp_values st !! n = Some a
              ∧ (a == a0 + Qsum (added_to n (trace st)))%Q)
      ∧ (∀ c0, cnt0 !! n = Some c0 →
           ∃ c, contribution_counter st !! n = Some c
                ∧ (c == c0 + inject_Z (Z.of_nat
                                         (length (added_to n (trace st)))))%Q).

(** What a call promises about counters and means: after it returns, every
    counter is a non-negative integer, and a cell whose accumulator started
    at zero and whose counter is not zero holds the arithmetic mean of the
    values the scatter phase added to it. *)
Definition mean_claim (known_coords : list Point) (known_values : list Q)
    (iv cc : ndarray) : Prop :=
  ∀ st, cnaturalneighbor_griddata known_coords known_values iv cc
        = Returned st →
  ∀ n a0 a c,
    nd_data iv !! n = Some a0 →
    interp_values st !! n = Some a →
    contribution_counter st !! n = Some c →
    (∃ m : nat, c == inject_Z (Z.of_nat m))%Q
    ∧ ((a0 == 0)%Q → ¬ (c == 0)%Q → (a == mean (added_to n (trace st)))%Q).

(** The running best is within squared distance [d] of the query. *)
Definition at_most (best : option neighbor) (d : Q) : Prop :=
  ∃ b, best = Some b ∧ (nn_distance b <= d)%Q.

(** A result built from one of the points [pts] for the query [q]. *)
Definition found_in (q : Point) (pts : list (Point * Q))
    (best : option neighbor) : Prop :=
  ∃ e, e ∈ pts ∧ best = Some (mkNeighbor e.1 e.2 (distance_sq q e.1)).

(** The order of two known points along an axis. *)
Definition axis_le (axis : nat) (a b : Point * Q) : Prop :=
  (coord axis a.1 <= coord axis b.1)%Q.

(** The triples three nested loops over [l1], [l2] and [l3] go through, in
    the order of the loops. *)
Definition box3 (l1 l2 l3 : list Z) : list (Z * Z * Z) :=
  l1 ≫= λ a, l2 ≫= λ b, (λ c, (a, b, c)) <$> l3.

(** The cells of the grid in the order of the three outer loops. *)
Definition grid_cells (ni nj nk : Z) : list (Z * Z * Z) :=
  box3 (seqZ 0 ni) (seqZ 0 nj) (seqZ 0 nk).

(** The candidates [(i_roi, j_roi, k_roi)] the scan of the cell [(i, j, k)]
    goes through for the radius [roi_radius]. *)
Definition roi_candidates (ni nj nk i j k roi_radius : Z)
  : list (Z * Z * Z) :=
  box3
    (seqZ (roi_min i roi_radius ni)
          (roi_max i roi_radius ni + 1 - roi_min i roi_radius ni))
    (seqZ (roi_min j roi_radius nj)
          (roi_max j roi_radius nj + 1 - roi_min j roi_radius nj))
    (seqZ (roi_min k roi_radius nk)
          (roi_max k roi_radius nk + 1 - roi_min k roi_radius nk)).

(** The test of the innermost loop for a candidate: its squared distance to
    the cell [(i, j, k)] is at most [d]. *)
Definition in_sphere (i j k : Z) (d : Q) (c : Z * Z * Z) : bool :=
  Qle_bool (inject_Z (delta_sq i c.1.1) + inject_Z (delta_sq j c.1.2)
            + inject_Z (delta_sq k c.2))%Q d.

(** The number of candidates of the cell [(i, j, k)] that pass the test,
    for the squared distance [d] to its nearest known point. *)
Definition roi_hits (ni nj nk i j k : Z) (d : Q) : nat :=
  length (filter (λ c, Is_true (in_sphere i j k d c))
            (roi_candidates ni nj nk i j k (ceil_sqrt d))).

(** Position of a cell in the buffers. *)
Definition cell_index (nj nk : Z) (c : Z * Z * Z) : nat :=
  Z.to_nat (flat_index nj nk c.1.1 c.1.2 c.2).

(** The query of a cell succeeds and its radius fits an [int]. *)
Definition query_ok (tree : kdtree) (c : Z * Z * Z) : Prop :=
  ∃ nn, nearest_iterative tree (pt c.1.1 c.1.2 c.2) = Some nn
        ∧ ceil_sqrt (nn_distance nn) ≤ INT_MAX.

(** The number of additions the scan of a cell makes and the value it
    adds, read from the result of the cell's query. *)
Definition cell_hits (tree : kdtree) (ni nj nk : Z) (c : Z * Z * Z) : nat :=
  match nearest_iterative tree (pt c.1.1 c.1.2 c.2) with
  | Some nn => roi_hits ni nj nk c.1.1 c.1.2 c.2 (nn_distance nn)
  | None => 0
  end.

Definition cell_value (tree : kdtree) (c : Z * Z * Z) : Q :=
  match nearest_iterative tree (pt c.1.1 c.1.2 c.2) with
  | Some nn => nn_value nn
  | None => 0%Q
  end.

(** * Properties *)

(** ** Loops *)

Section loops.
Context {A S : Type}.
Implicit Types (l : list A) (body : A → S → outcome S).

Lemma for_each_post l body (P : S → Prop) (F : fault → Prop) st :
  (∀ a s, a ∈ l → P s → post P F (body a s)) →
  P st → post P F (for_each l body st).
Proof.
  revert st. induction l as [|a l IH]; intros st Hbody HP; simpl; [done|].
  pose proof (Hbody a st ltac:(left) HP) as Ha.
  destruct (body a st) as [st'|why]; simpl in *; [|done].
  apply IH; [|done]. intros b s Hb. apply Hbody. by right.
Qed.

Lemma for_each_ext l body1 body2 st :
  (∀ a s, a ∈ l → body1 a s = body2 a s) →
  for_each l body1 st = for_each l body2 st.
Proof.
  revert st. induction l as [|a l IH]; intros st Hext; simpl; [done|].
  rewrite (Hext a st) by left.
  destruct (body2 a st) as [st'|why]; simpl; [|done].
  apply IH. intros b s Hb. apply Hext. by right.
Qed.

Lemma for_each_app l1 l2 body st :
  for_each (l1 ++ l2) body st
  = st' ← for_each l1 body st; for_each l2 body st'.
Proof.
  revert st. induction l1 as [|a l1 IH]; intros st; simpl; [done|].
  destruct (body a st) as [st'|why]; simpl; [apply IH|done].
Qed.

Lemma for_each_fmap {B : Type} (f : B → A) (l : list B) body st :
  for_each (f <$> l) body st = for_each l (λ b, body (f b)) st.
Proof.
  revert st. induction l as [|b l IH]; intros st; simpl; [done|].
  destruct (body (f b) st) as [st'|why]; simpl; [apply IH|done].
Qed.

Lemma for_each_nested {B : Type} (l : list B) (g : B → list A) body st :
  for_each l (λ b, for_each (g b) body) st = for_each (l ≫= g) body st.
Proof.
  revert st. induction l as [|b l IH]; intros st; simpl; [done|].
  rewrite for_each_app.
  destruct (for_each (g b) body st) as [st'|why]; simpl; [apply IH|done].
Qed.
End loops.

(** ** Machine arithmetic *)

Lemma wrap_small z : 0 ≤ z ≤ SIZE_MAX → wrap z = z.
Proof. unfold wrap, SIZE_MAX. intros H. apply Z.mod_small. lia. Qed.

Lemma wrap_range z : 0 ≤ wrap z ≤ SIZE_MAX.
Proof.
  unfold wrap, SIZE_MAX.
  pose proof (Z.mod_pos_bound z (2 ^ 64) ltac:(lia)). lia.
Qed.

Lemma wrap_le z : 0 ≤ z → wrap z ≤ z.
Proof. intros H. unfold wrap. apply Z.mod_le; lia. Qed.

Lemma flat_index_wrap nj nk i j k :
  flat_index nj nk i j k = wrap (nj * nk * i + nk * j + k).
Proof.
  unfold flat_index, wrap.
  rewrite Zplus_mod_idemp_l, <- Z.add_assoc, Zplus_mod_idemp_l.
  rewrite (Z.add_comm (_ mod _) k), Z.add_assoc, Zplus_mod_idemp_r.
  rewrite <- Z.add_assoc, <- Zplus_mod_idemp_l, Zmult_mod_idemp_l.
  rewrite Zplus_mod_idemp_l.
  f_equal. lia.
Qed.

Lemma flat_offset_bound ni nj nk i j k :
  in_grid ni nj nk i j k →
  0 ≤ nj * nk * i + nk * j + k < ni * nj * nk.
Proof.
  unfold in_grid. intros (Hi & Hj & Hk).
  assert (0 ≤ nk * j) by (apply Z.mul_nonneg_nonneg; lia).
  assert (0 ≤ nj * nk) by (apply Z.mul_nonneg_nonneg; lia).
  assert (0 ≤ nj * nk * i) by (apply Z.mul_nonneg_nonneg; lia).
  assert (nk * (j + 1) ≤ nk * nj) by (apply Z.mul_le_mono_nonneg_l; lia).
  assert (nj * nk * (i + 1) ≤ nj * nk * ni)
    by (apply Z.mul_le_mono_nonneg_l; lia).
  lia.
Qed.

Lemma flat_index_bound ni nj nk i j k :
  in_grid ni nj nk i j k →
  0 ≤ flat_index nj nk i j k < ni * nj * nk.
Proof.
  intros Hin. rewrite flat_index_wrap.
  pose proof (flat_offset_bound _ _ _ _ _ _ Hin).
  pose proof (wrap_le (nj * nk * i + nk * j + k) ltac:(lia)).
  pose proof (wrap_range (nj * nk * i + nk * j + k)). lia.
Qed.

Lemma flat_index_exact ni nj nk i j k :
  grid_ok ni nj nk → in_grid ni nj nk i j k →
  flat_index nj nk i j k = nj * nk * i + nk * j + k.
Proof.
  intros (_ & _ & _ & Hmax) Hin. rewrite flat_index_wrap.
  pose proof (flat_offset_bound _ _ _ _ _ _ Hin).
  apply wrap_small. lia.
Qed.

(** [delta_sq] is the square of the index difference: the wrap-around of
    the subtraction is undone by the multiplication. *)
Lemma delta_sq_exact x x_roi :
  - 2 ^ 32 < x - x_roi < 2 ^ 32 →
  delta_sq x x_roi = (x - x_roi) * (x - x_roi).
Proof.
  intros Hd. unfold delta_sq, wrap.
  rewrite <- Zmult_mod, Z.mod_small; [done|].
  rewrite <- Z.abs_square. split; [apply Z.mul_nonneg_nonneg; lia|].
  change (2 ^ 64) with (2 ^ 32 * 2 ^ 32).
  apply Z.mul_lt_mono_nonneg; lia.
Qed.

(** [ceil_sqrt d] is the least non-negative integer whose square reaches
    [d]. *)
Lemma ceil_sqrt_spec d :
  0 ≤ ceil_sqrt d
  ∧ (d <= inject_Z (ceil_sqrt d * ceil_sqrt d))%Q
  ∧ ∀ m, 0 ≤ m → (d <= inject_Z (m * m))%Q → ceil_sqrt d ≤ m.
Proof.
  unfold ceil_sqrt. pose proof (Qle_ceiling d) as Hup.
  pose proof (Qceiling_lt d) as Hlow.
  pose proof (Z.sqrt_up_nonneg (Qceiling d)) as Hnn.
  split_and!; [done| |].
  - destruct (Z.le_gt_cases (Qceiling d) 0) as [Hle|Hgt].
    + rewrite Z.sqrt_up_eqn0 by done. simpl.
      apply Qle_trans with (inject_Z (Qceiling d)); [done|].
      by rewrite <- Zle_Qle.
    + pose proof (Z.sqrt_up_spec (Qceiling d) Hgt) as [_ Hsq].
      apply Qle_trans with (inject_Z (Qceiling d)); [done|].
      by rewrite <- Zle_Qle.
  - intros m Hm Hd.
    assert (Qceiling d ≤ m * m) as Hc.
    { rewrite <- (Qceiling_Z (m * m)). by apply Qceiling_resp_le. }
    rewrite <- (Z.sqrt_up_square m Hm).
    by apply Z.sqrt_up_le_mono.
Qed.

(** ** Reading the known points *)

Lemma load_known_from (known_coords : list Point) (known_values : list Q)
    len m (vec : list (Point * Q)) :
  (m + len ≤ length known_coords)%nat →
  (length known_coords ≤ length known_values)%nat →
  for_each (seq m len)
    (λ i (vec : list (Point * Q)),
       match known_coords !! i, known_values !! i with
       | Some p, Some v => Returned (vec ++ [(p, v)])
       | _, _ => Fault OutOfBounds
       end) vec
  = Returned (vec ++ take len (drop m (zip known_coords known_values))).
Proof.
  revert m vec. induction len as [|len IH]; intros m vec Hm Hlen; simpl.
  - by rewrite app_nil_r.
  - destruct (lookup_lt_is_Some_2 known_coords m ltac:(lia)) as [p Hp].
    destruct (lookup_lt_is_Some_2 known_values m ltac:(lia)) as [v Hv].
    rewrite Hp, Hv. simpl. rewrite IH by lia.
    assert (zip known_coords known_values !! m = Some (p, v)) as Hz.
    { apply lookup_zip_with_Some. by exists p, v. }
    rewrite (drop_S _ _ _ Hz). simpl. by rewrite <- app_assoc.
Qed.

Lemma load_known_zip known_coords known_values :
  (length known_coords ≤ length known_values)%nat →
  load_known known_coords known_values
  = Returned (zip known_coords known_values).
Proof.
  intros Hlen. unfold load_known.
  rewrite load_known_from by (simpl; lia). simpl.
  rewrite drop_0, take_ge; [done|].
  rewrite length_zip_with. lia.
Qed.

(** ** Writes stay inside the buffers *)

Section extent.
Variables ni nj nk : Z.

Lemma flat_index_in_extent i j k :
  in_grid ni nj nk i j k →
  (Z.to_nat (flat_index nj nk i j k) < Z.to_nat (ni * nj * nk))%nat.
Proof. intros Hin. pose proof (flat_index_bound _ _ _ _ _ _ Hin). lia. Qed.

Lemma accumulate_extent i j k v st :
  in_grid ni nj nk i j k → extent_inv ni nj nk st →
  post (extent_inv ni nj nk) (λ _, False) (accumulate (flat_index nj nk i j k) v st).
Proof.
  intros Hin (Ha & Hc & Htr). unfold accumulate.
  pose proof (flat_index_in_extent i j k Hin) as Hlt.
  rewrite decide_True by lia. simpl.
  split_and!; simpl; rewrite ?length_alter; try done.
  constructor; [|done]. split; [by exists i, j, k|].
  simpl. pose proof (flat_index_bound _ _ _ _ _ _ Hin). lia.
Qed.

Lemma scatter_cell_extent tree i j k st :
  in_grid ni nj nk i j k → extent_inv ni nj nk st →
  post (extent_inv ni nj nk) (λ why, why ≠ OutOfBounds)
    (scatter_cell tree ni nj nk i j k st).
Proof.
  intros Hin Hst. unfold scatter_cell.
  destruct (nearest_iterative _ _) as [nn|]; simpl; [|done].
  destruct (INT_MAX <? _); simpl; [done|].
  unfold for_upto.
  apply for_each_post; [|done]. intros i_roi s1 _ Hs1.
  apply for_each_post; [|done]. intros j_roi s2 _ Hs2.
  apply for_each_post; [|done]. intros k_roi s3 _ Hs3.
  destruct (Qle_bool _ _); [|done].
  pose proof (accumulate_extent i j k (nn_value nn) s3 Hin Hs3) as Hacc.
  destruct (accumulate _ _ _); simpl in *; done.
Qed.

Lemma scatter_pass_extent tree st :
  extent_inv ni nj nk st →
  post (extent_inv ni nj nk) (λ why, why ≠ OutOfBounds)
    (scatter_pass tree ni nj nk st).
Proof.
  intros Hst. unfold scatter_pass, for_below.
  apply for_each_post; [|done]. intros i s1 Hi Hs1.
  apply for_each_post; [|done]. intros j s2 Hj Hs2.
  apply for_each_post; [|done]. intros k s3 Hk Hs3.
  apply scatter_cell_extent; [|done].
  apply elem_of_seqZ in Hi, Hj, Hk. unfold in_grid. lia.
Qed.

Lemma normalize_cell_extent i j k st :
  in_grid ni nj nk i j k → extent_inv ni nj nk st →
  post (extent_inv ni nj nk) (λ _, False) (normalize_cell (flat_index nj nk i j k) st).
Proof.
  intros Hin (Ha & Hc & Htr). unfold normalize_cell.
  pose proof (flat_index_in_extent i j k Hin) as Hlt.
  destruct (lookup_lt_is_Some_2 (contribution_counter st)
              (Z.to_nat (flat_index nj nk i j k)) ltac:(lia)) as [c ->].
  destruct (lookup_lt_is_Some_2 (interp_values st)
              (Z.to_nat (flat_index nj nk i j k)) ltac:(lia)) as [a ->].
  destruct (Qeq_bool c 0); simpl; [done|].
  split_and!; simpl; rewrite ?length_insert; try done.
  constructor; [|done]. split; [by exists i, j, k|].
  simpl. pose proof (flat_index_bound _ _ _ _ _ _ Hin). lia.
Qed.

Lemma normalize_pass_extent st :
  extent_inv ni nj nk st →
  post (extent_inv ni nj nk) (λ _, False) (normalize_pass ni nj nk st).
Proof.
  intros Hst. unfold normalize_pass, for_below.
  apply for_each_post; [|done]. intros i s1 Hi Hs1.
  apply for_each_post; [|done]. intros j s2 Hj Hs2.
  apply for_each_post; [|done]. intros k s3 Hk Hs3.
  apply normalize_cell_extent; [|done].
  apply elem_of_seqZ in Hi, Hj, Hk. unfold in_grid. lia.
Qed.
End extent.

(** All the writes of one cell's scan go to the cell's own flat index, with
    the value of its nearest known point. *)
Lemma scatter_cell_trace tree ni nj nk i j k st :
  post (λ st', ∃ n v,
          trace st'
          = replicate n (Accum (Z.to_nat (flat_index nj nk i j k)) v)
            ++ trace st)
       (λ _, True)
       (scatter_cell tree ni nj nk i j k st).
Proof.
  unfold scatter_cell.
  destruct (nearest_iterative _ _) as [nn|]; simpl; [|done].
  destruct (INT_MAX <? _); simpl; [done|].
  set (e := Accum (Z.to_nat (flat_index nj nk i j k)) (nn_value nn)).
  assert (post (λ st', ∃ n, trace st' = replicate n e ++ trace st) (λ _, True)
            (for_upto (roi_min i (ceil_sqrt (nn_distance nn)) ni)
               (roi_max i (ceil_sqrt (nn_distance nn)) ni)
               (λ i_roi,
                  for_upto (roi_min j (ceil_sqrt (nn_distance nn)) nj)
                    (roi_max j (ceil_sqrt (nn_distance nn)) nj)
                    (λ j_roi,
                       for_upto (roi_min k (ceil_sqrt (nn_distance nn)) nk)
                         (roi_max k (ceil_sqrt (nn_distance nn)) nk)
                         (λ k_roi st,
                            if Qle_bool
                                 (inject_Z (delta_sq i i_roi)
                                  + inject_Z (delta_sq j j_roi)
                                  + inject_Z (delta_sq k k_roi))
                                 (nn_distance nn)
                            then accumulate (flat_index nj nk i j k)
                                   (nn_value nn) st
                            else Returned st))) st)) as Hloop.
  { unfold for_upto.
    apply for_each_post; [|by exists 0%nat]. intros i_roi s1 _ Hs1.
    apply for_each_post; [|done]. intros j_roi s2 _ Hs2.
    apply for_each_post; [|done]. intros k_roi s3 _ [n Hs3].
    destruct (Qle_bool _ _); [|by exists n].
    unfold accumulate. destruct (decide _); simpl; [|done].
    exists (S n). by rewrite Hs3. }
  destruct (for_upto _ _ _ _) as [st'|]; simpl in *; [|done].
  destruct Hloop as [n Hn]. by exists n, (nn_value nn).
Qed.

(** C10: every write of a call, in the scatter loops and in the
    normalisation loops, goes to the flat index [nj*nk*i + nk*j + k] of a
    cell [(i, j, k)] of the grid and lies below [ni*nj*nk]; with buffers of
    that many cells the call never touches a buffer out of bounds, whatever
    the region-of-interest bounds are. *)
Theorem griddata_writes_in_bounds known_coords known_values iv cc ni nj nk :
  nd_shape iv = (ni, nj, nk) →
  length (nd_data iv) = Z.to_nat (ni * nj * nk) →
  length (nd_data cc) = Z.to_nat (ni * nj * nk) →
  (length known_coords ≤ length known_values)%nat →
  post (λ st, Forall (in_extent ni nj nk) (trace st))
       (λ why, why ≠ OutOfBounds)
       (cnaturalneighbor_griddata known_coords known_values iv cc).
Proof.
  intros Hshape Hiv Hcc Hlen. unfold cnaturalneighbor_griddata.
  rewrite load_known_zip by done. simpl. rewrite Hshape.
  set (st0 := {| interp_values := nd_data iv;
                 contribution_counter := nd_data cc; trace := [] |}).
  assert (extent_inv ni nj nk st0) as Hst0 by (by split_and!).
  pose proof (scatter_pass_extent ni nj nk
                (index_known (zip known_coords known_values)) st0 Hst0) as Hsc.
  destruct (scatter_pass _ _ _ _ _) as [st1|why]; simpl in *; [|done].
  pose proof (normalize_pass_extent ni nj nk st1 Hsc) as Hno.
  destruct (normalize_pass _ _ _ _) as [st2|why]; simpl in *; [|done].
  by destruct Hno as (_ & _ & ?).
Qed.

Lemma griddata_writes_in_bounds_witness :
  post (λ st, Forall (in_extent 2 1 1) (trace st))
       (λ why, why ≠ OutOfBounds)
       (cnaturalneighbor_griddata [pt 0 0 0] [10%Q]
          (zeros 2 1 1) (zeros 2 1 1)).
Proof.
  apply (griddata_writes_in_bounds [pt 0 0 0] [10%Q]
           (zeros 2 1 1) (zeros 2 1 1) 2 1 1); reflexivity || (simpl; lia).
Defined.

(** ** The grid loops visit the flat indices in order *)

Lemma seqZ_rows (n : nat) (a m : Z) :
  0 ≤ m →
  seqZ 0 (Z.of_nat n) ≫= (λ j, seqZ (a + m * j) m)
  = seqZ a (Z.of_nat n * m).
Proof.
  intros Hm. induction n as [|n IH].
  - simpl. by rewrite seqZ_nil by lia.
  - rewrite seqZ_S, bind_app, IH. simpl. rewrite app_nil_r.
    replace (Z.of_nat (S n) * m) with (Z.of_nat n * m + m) by lia.
    rewrite seqZ_app by lia. do 2 f_equal. lia.
Qed.

Lemma seqZ_rows_Z (n a m : Z) :
  0 ≤ n → 0 ≤ m →
  seqZ 0 n ≫= (λ j, seqZ (a + m * j) m) = seqZ a (n * m).
Proof.
  intros Hn Hm. rewrite <- (Z2Nat.id n) by done. by apply seqZ_rows.
Qed.

Lemma for_each_offset {S : Type} (a n : Z) (body : Z → S → outcome S) st :
  for_each (seqZ 0 n) (λ k, body (a + k)) st = for_each (seqZ a n) body st.
Proof.
  rewrite <- (for_each_fmap (Z.add a)), fmap_add_seqZ. by rewrite Z.add_0_r.
Qed.

Lemma grid_loops_linear {S : Type} ni nj nk (body : Z → S → outcome S) st :
  grid_ok ni nj nk →
  for_below ni (λ i,
    for_below nj (λ j,
      for_below nk (λ k, body (flat_index nj nk i j k)))) st
  = for_each (seqZ 0 (ni * nj * nk)) body st.
Proof.
  intros Hok. pose proof Hok as (Hni & Hnj & Hnk & Hmax). unfold for_below.
  assert (0 ≤ nj * nk) by (apply Z.mul_nonneg_nonneg; lia).
  rewrite <- Z.mul_assoc, <- (seqZ_rows_Z ni 0 (nj * nk)) by lia.
  rewrite <- for_each_nested. apply for_each_ext. intros i s1 Hi.
  apply elem_of_seqZ in Hi. rewrite Z.add_0_l.
  rewrite <- (seqZ_rows_Z nj (nj * nk * i) nk) by lia.
  rewrite <- for_each_nested. apply for_each_ext. intros j s2 Hj.
  apply elem_of_seqZ in Hj.
  rewrite <- (for_each_offset (nj * nk * i + nk * j)).
  apply for_each_ext. intros k s3 Hk.
  apply elem_of_seqZ in Hk.
  by rewrite (flat_index_exact ni nj nk) by (done || (unfold in_grid; lia)).
Qed.

Lemma for_each_seqZ_nat {S : Type} (n : Z) (body : Z → S → outcome S) st :
  for_each (seqZ 0 n) body st
  = for_each (seq 0 (Z.to_nat n)) (λ i, body (Z.of_nat i)) st.
Proof.
  unfold seqZ. rewrite for_each_fmap. apply for_each_ext.
  intros i s _. by rewrite Z.add_0_r.
Qed.

(** ** The normalisation pass *)

Lemma normalize_seq len : ∀ m st,
  (m + len ≤ length (interp_values st))%nat →
  (m + len ≤ length (contribution_counter st))%nat →
  ∃ st',
    for_each (seq m len) (λ i, normalize_cell (Z.of_nat i)) st = Returned st'
    ∧ contribution_counter st' = contribution_counter st
    ∧ length (interp_values st') = length (interp_values st)
    ∧ (∀ n, interp_values st' !! n
            = if decide (m ≤ n < m + len)%nat
              then a ← interp_values st !! n;
                   c ← contribution_counter st !! n;
                   Some (normalized a c)
              else interp_values st !! n)
    ∧ trace st'
      = normalize_events (contribution_counter st) (seq m len) ++ trace st.
Proof.
  induction len as [|len IH]; intros m st Ha Hc.
  - exists st. simpl. split_and!; try done.
    intros n. by rewrite decide_False by lia.
  - destruct (lookup_lt_is_Some_2 (contribution_counter st) m ltac:(lia))
      as [c Hcm].
    destruct (lookup_lt_is_Some_2 (interp_values st) m ltac:(lia))
      as [a Ham].
    set (st1 := if Qeq_bool c 0 then st
                else {| interp_values := <[m := (a / c)%Q]> (interp_values st);
                        contribution_counter := contribution_counter st;
                        trace := Normalize m :: trace st |}).
    assert (normalize_cell (Z.of_nat m) st = Returned st1) as Hstep.
    { unfold normalize_cell, st1. rewrite Nat2Z.id, Hcm, Ham.
      by destruct (Qeq_bool c 0). }
    assert (contribution_counter st1 = contribution_counter st) as Hc1
      by (unfold st1; by destruct (Qeq_bool c 0)).
    assert (interp_values st1 = <[m := normalized a c]> (interp_values st))
      as Ha1.
    { unfold st1, normalized. destruct (Qeq_bool c 0); simpl; [|done].
      by rewrite list_insert_id. }
    assert (trace st1
            = (if nonzero_at (contribution_counter st) m
               then [Normalize m] else []) ++ trace st) as Ht1.
    { unfold st1, nonzero_at. rewrite Hcm. by destruct (Qeq_bool c 0). }
    destruct (IH (S m) st1) as (st' & Hrun & Hc' & Hlen' & Ha' & Ht').
    { rewrite Ha1, length_insert. lia. }
    { rewrite Hc1. lia. }
    exists st'. split_and!.
    + cbn [seq for_each]. by rewrite Hstep.
    + by rewrite Hc', Hc1.
    + by rewrite Hlen', Ha1, length_insert.
    + intros n. rewrite Ha', Hc1, Ha1.
      destruct (decide (n = m)) as [->|Hne].
      * rewrite decide_False, decide_True by lia.
        rewrite list_lookup_insert_eq by lia. by rewrite Ham, Hcm.
      * rewrite list_lookup_insert_ne by done.
        destruct (decide (S m ≤ n < S m + len)%nat).
        -- by rewrite decide_True by lia.
        -- by rewrite decide_False by lia.
    + rewrite Ht', Hc1, Ht1. unfold normalize_events. cbn [seq].
      rewrite filter_cons.
      destruct (nonzero_at (contribution_counter st) m) eqn:Hnz.
      * rewrite decide_True by done. rewrite fmap_cons, reverse_cons.
        by rewrite <- app_assoc.
      * by rewrite decide_False by (by intros []).
Qed.

Lemma normalize_pass_run ni nj nk st :
  grid_ok ni nj nk →
  length (interp_values st) = Z.to_nat (ni * nj * nk) →
  length (contribution_counter st) = Z.to_nat (ni * nj * nk) →
  ∃ st',
    normalize_pass ni nj nk st = Returned st'
    ∧ contribution_counter st' = contribution_counter st
    ∧ interp_values st'
      = zip_with normalized (interp_values st) (contribution_counter st)
    ∧ trace st'
      = normalize_events (contribution_counter st)
          (seq 0 (Z.to_nat (ni * nj * nk))) ++ trace st.
Proof.
  intros Hok Ha Hc. unfold normalize_pass.
  rewrite grid_loops_linear, for_each_seqZ_nat by done.
  destruct (normalize_seq (Z.to_nat (ni * nj * nk)) 0%nat st)
    as (st' & Hrun & Hc' & Hlen' & Ha' & Ht'); [simpl; lia..|].
  exists st'. split_and!; try done.
  apply list_eq. intros n. rewrite Ha', lookup_zip_with.
  destruct (decide (0 ≤ n < 0 + Z.to_nat (ni * nj * nk))%nat) as [Hn|Hn].
  - destruct (lookup_lt_is_Some_2 (contribution_counter st) n ltac:(lia))
      as [c ->].
    destruct (lookup_lt_is_Some_2 (interp_values st) n ltac:(lia))
      as [a ->]. done.
  - rewrite (lookup_ge_None_2 (interp_values st)) by lia. done.
Qed.

(** C6: the normalisation pass returns, leaves the counters as they are,
    and replaces the accumulator of every cell of the grid, once, by its
    quotient by the cell's counter when the counter is not zero and by
    itself when it is zero; the divisions are those of the cells with a
    non-zero counter, each once, in row-major order. *)
Theorem normalize_pass_spec ni nj nk st :
  grid_ok ni nj nk →
  length (interp_values st) = Z.to_nat (ni * nj * nk) →
  length (contribution_counter st) = Z.to_nat (ni * nj * nk) →
  ∃ st',
    normalize_pass ni nj nk st = Returned st'
    ∧ contribution_counter st' = contribution_counter st
    ∧ interp_values st'
      = zip_with normalized (interp_values st) (contribution_counter st)
    ∧ (∀ i j k, in_grid ni nj nk i j k →
         ∃ a c,
           interp_values st !! Z.to_nat (flat_index nj nk i j k) = Some a
           ∧ contribution_counter st !! Z.to_nat (flat_index nj nk i j k)
             = Some c
           ∧ interp_values st' !! Z.to_nat (flat_index nj nk i j k)
             = Some (if Qeq_bool c 0 then a else (a / c)%Q))
    ∧ trace st'
      = normalize_events (contribution_counter st)
          (seq 0 (Z.to_nat (ni * nj * nk))) ++ trace st.
Proof.
  intros Hok Ha Hc.
  destruct (normalize_pass_run ni nj nk st Hok Ha Hc)
    as (st' & Hrun & Hc' & Hzip & Ht').
  exists st'. split_and!; try done.
  intros i j k Hin.
  pose proof (flat_index_in_extent ni nj nk i j k Hin) as Hlt.
  destruct (lookup_lt_is_Some_2 (contribution_counter st)
              (Z.to_nat (flat_index nj nk i j k)) ltac:(lia)) as [c Hcm].
  destruct (lookup_lt_is_Some_2 (interp_values st)
              (Z.to_nat (flat_index nj nk i j k)) ltac:(lia)) as [a Ham].
  exists a, c. split_and!; try done.
  rewrite Hzip, lookup_zip_with, Ham, Hcm. done.
Qed.

Lemma normalize_pass_spec_witness :
  ∃ st',
    normalize_pass 2 1 1 (mkBuffers [10%Q; 20%Q] [1%Q; 2%Q] []) = Returned st'
    ∧ interp_values st' = zip_with normalized [10%Q; 20%Q] [1%Q; 2%Q].
Proof.
  destruct (normalize_pass_spec 2 1 1 (mkBuffers [10%Q; 20%Q] [1%Q; 2%Q] []))
    as (st' & Hrun & _ & Hzip & _).
  - unfold grid_ok, SIZE_MAX. lia.
  - reflexivity.
  - reflexivity.
  - exists st'. by split.
Defined.

(** ** Accounting for the scatter writes *)

Lemma added_to_app n tr1 tr2 :
  added_to n (tr1 ++ tr2) = added_to n tr1 ++ added_to n tr2.
Proof. unfold added_to. apply omap_app. Qed.

Lemma added_to_normalize_events n cnt idxs :
  added_to n (normalize_events cnt idxs) = [].
Proof.
  unfold normalize_events.
  induction (filter _ idxs) as [|m l IH]; [done|].
  rewrite fmap_cons, reverse_cons, added_to_app, IH. done.
Qed.

Lemma inject_Z_S (n : nat) :
  (inject_Z (Z.of_nat (S n)) == inject_Z (Z.of_nat n) + 1)%Q.
Proof. rewrite Nat2Z.inj_succ. unfold Z.succ. by rewrite inject_Z_plus. Qed.

Lemma accumulate_inv acc0 cnt0 indice v st :
  scatter_inv acc0 cnt0 st →
  post (scatter_inv acc0 cnt0) (λ _, True) (accumulate indice v st).
Proof.
  intros (Ha & Hc & Hcells). unfold accumulate.
  destruct (decide _) as [[Hlta Hltc]|]; simpl; [|done].
  split_and!; simpl; rewrite ?length_alter; try done.
  intros n. destruct (Hcells n) as [Hacc Hcnt].
  destruct (decide (Z.to_nat indice = n)) as [->|Hne].
  - split.
    + intros a0 Ha0. destruct (Hacc a0 Ha0) as (a & Hlook & Heq).
      exists (a + v)%Q. rewrite list_lookup_alter_eq, Hlook. split; [done|].
      simpl. rewrite Heq. ring.
    + intros c0 Hc0. destruct (Hcnt c0 Hc0) as (c & Hlook & Heq).
      exists (c + 1)%Q. rewrite list_lookup_alter_eq, Hlook. split; [done|].
      cbn [length]. rewrite inject_Z_S, Heq. ring.
  - rewrite !list_lookup_alter_ne by done. done.
Qed.

Lemma scatter_cell_inv acc0 cnt0 tree ni nj nk i j k st :
  scatter_inv acc0 cnt0 st →
  post (scatter_inv acc0 cnt0) (λ _, True)
    (scatter_cell tree ni nj nk i j k st).
Proof.
  intros Hst. unfold scatter_cell.
  destruct (nearest_iterative _ _) as [nn|]; simpl; [|done].
  destruct (INT_MAX <? _); simpl; [done|].
  unfold for_upto.
  apply for_each_post; [|done]. intros i_roi s1 _ Hs1.
  apply for_each_post; [|done]. intros j_roi s2 _ Hs2.
  apply for_each_post; [|done]. intros k_roi s3 _ Hs3.
  destruct (Qle_bool _ _); [|done].
  by apply accumulate_inv.
Qed.

Lemma scatter_pass_inv acc0 cnt0 tree ni nj nk st :
  scatter_inv acc0 cnt0 st →
  post (scatter_inv acc0 cnt0) (λ _, True) (scatter_pass tree ni nj nk st).
Proof.
  intros Hst. unfold scatter_pass, for_below.
  apply for_each_post; [|done]. intros i s1 _ Hs1.
  apply for_each_post; [|done]. intros j s2 _ Hs2.
  apply for_each_post; [|done]. intros k s3 _ Hs3.
  by apply scatter_cell_inv.
Qed.

Lemma scatter_inv_init acc0 cnt0 :
  scatter_inv acc0 cnt0
    {| interp_values := acc0; contribution_counter := cnt0; trace := [] |}.
Proof.
  split_and!; try done. intros n. split.
  - intros a0 Ha0. exists a0. split; [done|]. simpl. ring.
  - intros c0 Hc0. exists c0. split; [done|]. simpl. ring.
Qed.

(** ** Counters and means *)

Lemma griddata_lengths known_coords known_values iv cc ni nj nk st :
  nd_shape iv = (ni, nj, nk) →
  length (nd_data iv) = Z.to_nat (ni * nj * nk) →
  length (nd_data cc) = Z.to_nat (ni * nj * nk) →
  cnaturalneighbor_griddata known_coords known_values iv cc = Returned st →
  length (interp_values st) = Z.to_nat (ni * nj * nk)
  ∧ length (contribution_counter st) = Z.to_nat (ni * nj * nk).
Proof.
  intros Hshape Hiv Hcc. unfold cnaturalneighbor_griddata.
  destruct (load_known _ _) as [known|]; simpl; [|done]. rewrite Hshape.
  set (st0 := {| interp_values := nd_data iv;
                 contribution_counter := nd_data cc; trace := [] |}).
  assert (extent_inv ni nj nk st0) as Hst0 by (by split_and!).
  pose proof (scatter_pass_extent ni nj nk (index_known known) st0 Hst0)
    as Hsc.
  destruct (scatter_pass _ _ _ _ _) as [st1|]; simpl in *; [|done].
  pose proof (normalize_pass_extent ni nj nk st1 Hsc) as Hno.
  intros Hrun. rewrite Hrun in Hno. simpl in Hno.
  by destruct Hno as (? & ? & _).
Qed.

Lemma griddata_accounts known_coords known_values iv cc ni nj nk st :
  nd_shape iv = (ni, nj, nk) →
  grid_ok ni nj nk →
  length (nd_data iv) = Z.to_nat (ni * nj * nk) →
  length (nd_data cc) = Z.to_nat (ni * nj * nk) →
  cnaturalneighbor_griddata known_coords known_values iv cc = Returned st →
  ∀ n a0 c0,
    nd_data iv !! n = Some a0 → nd_data cc !! n = Some c0 →
    ∃ a1 c1,
      interp_values st !! n = Some (normalized a1 c1)
      ∧ contribution_counter st !! n = Some c1
      ∧ (a1 == a0 + Qsum (added_to n (trace st)))%Q
      ∧ (c1 == c0 + inject_Z (Z.of_nat (length (added_to n (trace st)))))%Q.
Proof.
  intros Hshape Hok Hiv Hcc. unfold cnaturalneighbor_griddata.
  destruct (load_known _ _) as [known|]; simpl; [|done]. rewrite Hshape.
  pose proof (scatter_pass_inv _ _ (index_known known) ni nj nk _
                (scatter_inv_init (nd_data iv) (nd_data cc))) as Hsc.
  destruct (scatter_pass _ _ _ _ _) as [st1|]; simpl in *; [|done].
  destruct Hsc as (Hla & Hlc & Hcells).
  destruct (normalize_pass_run ni nj nk st1)
    as (st2 & -> & Hc2 & Ha2 & Ht2); [done|congruence..|].
  intros [= <-] n a0 c0 Ha0 Hc0.
  destruct (Hcells n) as [Hacc Hcnt].
  destruct (Hacc a0 Ha0) as (a1 & Ha1 & Heqa).
  destruct (Hcnt c0 Hc0) as (c1 & Hc1 & Heqc).
  exists a1, c1.
  rewrite Ht2, added_to_app, added_to_normalize_events, app_nil_l.
  split_and!; try done.
  - rewrite Ha2, lookup_zip_with, Ha1. simpl. by rewrite Hc1.
  - by rewrite Hc2.
Qed.

(** C7, amended: when the caller zero-initialises the counter buffer, after
    the call every counter is a non-negative integer, the number of values
    the scatter phase added to the cell, and a cell whose accumulator
    started at zero and whose counter is not zero holds the arithmetic mean
    of these values. *)
Theorem griddata_mean known_coords known_values iv cc ni nj nk :
  nd_shape iv = (ni, nj, nk) →
  grid_ok ni nj nk →
  length (nd_data iv) = Z.to_nat (ni * nj * nk) →
  length (nd_data cc) = Z.to_nat (ni * nj * nk) →
  Forall (λ c, c == 0)%Q (nd_data cc) →
  mean_claim known_coords known_values iv cc
  ∧ ∀ st n c,
      cnaturalneighbor_griddata known_coords known_values iv cc
      = Returned st →
      contribution_counter st !! n = Some c →
      (c == inject_Z (Z.of_nat (length (added_to n (trace st)))))%Q.
Proof.
  intros Hshape Hok Hiv Hcc Hzero.
  assert (∀ st n a0 c,
            cnaturalneighbor_griddata known_coords known_values iv cc
            = Returned st →
            nd_data iv !! n = Some a0 →
            contribution_counter st !! n = Some c →
            ∃ a1, interp_values st !! n = Some (normalized a1 c)
                  ∧ (a1 == a0 + Qsum (added_to n (trace st)))%Q
                  ∧ (c == inject_Z (Z.of_nat
                                      (length (added_to n (trace st)))))%Q)
    as Hcell.
  { intros st n a0 c Hrun Ha0 Hc.
    destruct (lookup_lt_is_Some_2 (nd_data cc) n) as [c0 Hc0].
    { apply lookup_lt_Some in Ha0. lia. }
    destruct (griddata_accounts _ _ _ _ _ _ _ _ Hshape Hok Hiv Hcc Hrun
                n a0 c0 Ha0 Hc0) as (a1 & c1 & Ha & Hc' & Heqa & Heqc).
    assert (c1 = c) as -> by congruence.
    exists a1. split_and!; try done.
    rewrite Forall_lookup in Hzero. rewrite Heqc, (Hzero n c0 Hc0). ring. }
  split.
  - intros st Hrun n a0 a c Ha0 Ha Hc.
    destruct (Hcell st n a0 c Hrun Ha0 Hc) as (a1 & Ha' & Heqa & Heqc).
    split; [by eexists|]. intros Hz Hnz.
    assert (a = normalized a1 c) as -> by congruence.
    unfold normalized, mean.
    destruct (Qeq_bool c 0) eqn:Hb; [by apply Qeq_bool_iff in Hb|].
    rewrite Heqa, Hz, Qplus_0_l. by rewrite <- Heqc.
  - intros st n c Hrun Hc.
    destruct (lookup_lt_is_Some_2 (nd_data iv) n) as [a0 Ha0].
    { apply lookup_lt_Some in Hc.
      pose proof (griddata_lengths _ _ _ _ _ _ _ _ Hshape Hiv Hcc Hrun).
      lia. }
    by destruct (Hcell st n a0 c Hrun Ha0 Hc) as (a1 & _ & _ & Heqc).
Qed.

Lemma griddata_mean_witness :
  (∃ st, cnaturalneighbor_griddata [pt 0 0 0] [10%Q]
           (zeros 2 1 1) (zeros 2 1 1) = Returned st)
  ∧ mean_claim [pt 0 0 0] [10%Q] (zeros 2 1 1) (zeros 2 1 1).
Proof.
  split; [by eexists|].
  apply (griddata_mean [pt 0 0 0] [10%Q] (zeros 2 1 1) (zeros 2 1 1) 2 1 1).
  - reflexivity.
  - unfold grid_ok, SIZE_MAX. lia.
  - reflexivity.
  - reflexivity.
  - repeat constructor.
Defined.

(** C7 as stated fails when the caller hands in a counter buffer that is not
    zero: with one known point of value 5 on a one-cell grid, a zero
    accumulator and a counter that starts at 1, the cell ends with counter 2
    and value 5/2, while the mean of the values added to it is 5. *)
Lemma mean_claim_fails_on_seeded_counter :
  ¬ mean_claim [pt 0 0 0] [5%Q] (zeros 1 1 1) (mkArray (1, 1, 1) [1%Q]).
Proof.
  intros Hclaim.
  destruct (Hclaim (mkBuffers [5 # 2] [2%Q] [Normalize 0; Accum 0 5])
              ltac:(by vm_compute) 0%nat 0%Q (5 # 2) 2%Q
              eq_refl eq_refl eq_refl) as [_ Hmean].
  specialize (Hmean ltac:(reflexivity) ltac:(discriminate)).
  vm_compute in Hmean. discriminate.
Qed.

(** ** The spatial index *)

Lemma insert_by_axis_perm axis e l : insert_by_axis axis e l ≡ₚ e :: l.
Proof.
  induction l as [|e' l IH]; simpl; [done|].
  destruct (Qle_bool _ _); [done|]. rewrite IH. apply Permutation_swap.
Qed.

Lemma sort_by_axis_perm axis l : sort_by_axis axis l ≡ₚ l.
Proof.
  induction l as [|e l IH]; simpl; [done|].
  rewrite insert_by_axis_perm. by constructor.
Qed.

Lemma insert_by_axis_sorted axis e l :
  StronglySorted (axis_le axis) l →
  StronglySorted (axis_le axis) (insert_by_axis axis e l).
Proof.
  induction 1 as [|e' l Hsorted IH Hall]; simpl.
  - repeat constructor.
  - destruct (Qle_bool _ _) eqn:Hle.
    + apply Qle_bool_iff in Hle. constructor; [by constructor|].
      constructor; [done|].
      eapply Forall_impl; [exact Hall|]. intros x Hx.
      unfold axis_le in *. lra.
    + assert (axis_le axis e' e) as Hlt.
      { unfold axis_le. destruct (Qlt_le_dec (coord axis e'.1) (coord axis e.1))
          as [?|Hge]; [lra|].
        apply Qle_bool_iff in Hge. congruence. }
      constructor; [done|].
      rewrite insert_by_axis_perm. by constructor.
Qed.

Lemma sort_by_axis_sorted axis l :
  StronglySorted (axis_le axis) (sort_by_axis axis l).
Proof.
  induction l as [|e l IH]; simpl; [constructor|].
  by apply insert_by_axis_sorted.
Qed.

(** The median split of a non-empty sorted list. *)
Lemma median_split axis pts :
  let sorted := sort_by_axis axis pts in
  let median := (length sorted / 2)%nat in
  match drop median sorted with
  | [] => pts = []
  | e :: above =>
      pts ≡ₚ e :: take median sorted ++ above
      ∧ Forall (λ x, axis_le axis x e) (take median sorted)
      ∧ Forall (axis_le axis e) above
      ∧ (length (take median sorted) < length pts)%nat
      ∧ (length above < length pts)%nat
  end.
Proof.
  intros sorted median.
  pose proof (sort_by_axis_perm axis pts) as Hperm.
  pose proof (sort_by_axis_sorted axis pts) as Hsorted.
  fold sorted in Hperm, Hsorted.
  pose proof (take_drop median sorted) as Hsplit.
  assert (length sorted = length pts) as Hlen by (by rewrite Hperm).
  assert (median = length sorted / 2)%nat as Hmed by done.
  destruct (drop median sorted) as [|e above] eqn:Hdrop.
  - assert (length (drop median sorted) = 0%nat) as Hd by (by rewrite Hdrop).
    rewrite length_drop in Hd.
    assert (length sorted = 0%nat) as Hz.
    { destruct (length sorted) as [|n] eqn:Hn; [done|].
      pose proof (Nat.div_lt (S n) 2 ltac:(lia) ltac:(lia)). lia. }
    apply nil_length_inv. lia.
  - assert (length sorted = length (take median sorted) + S (length above))%nat
      as Hsum.
    { rewrite <- Hsplit at 1. by rewrite length_app. }
    rewrite <- Hsplit in Hsorted. apply StronglySorted_app in Hsorted.
    destruct Hsorted as (Hcross & _ & Habove).
    apply StronglySorted_cons in Habove. destruct Habove as [Habove _].
    split_and!; try lia; try done.
    + rewrite <- Hperm.
      trans (take median sorted ++ e :: above); [by rewrite Hsplit|].
      by rewrite Permutation_middle.
    + apply Forall_forall. intros x Hx. apply Hcross; [done|left].
Qed.

Lemma build_nodes_spec fuel : ∀ depth pts,
  (length pts ≤ fuel)%nat →
  elements (build_nodes fuel depth pts) ≡ₚ pts
  ∧ kd_inv (build_nodes fuel depth pts).
Proof.
  induction fuel as [|fuel IH]; intros depth pts Hlen.
  - assert (pts = []) as -> by (apply nil_length_inv; lia). done.
  - cbn [build_nodes].
    pose proof (median_split (depth mod 3) pts) as Hmed. cbv zeta in Hmed.
    destruct (drop _ _) as [|[p v] above]; [by subst|].
    destruct Hmed as (Hperm & Hlow & Hhigh & Hl1 & Hl2).
    destruct (IH (S depth) (take (length (sort_by_axis (depth mod 3) pts) / 2)
                              (sort_by_axis (depth mod 3) pts)))
      as [Hel1 Hinv1]; [lia|].
    destruct (IH (S depth) above) as [Hel2 Hinv2]; [lia|].
    split.
    + cbn [elements]. by rewrite Hel1, Hel2.
    + cbn [kd_inv]. split_and!; try done.
      * intros e He. rewrite Hel1 in He.
        rewrite Forall_forall in Hlow. by apply Hlow in He.
      * intros e He. rewrite Hel2 in He.
        rewrite Forall_forall in Hhigh. by apply Hhigh in He.
Qed.

Lemma index_known_nodes known t :
  m_nodes (foldl (λ t e, kdtree_add e.1 e.2 t) t known)
  = m_nodes t ++ known.
Proof.
  revert t. induction known as [|[p v] known IH]; intros t; simpl.
  - by rewrite app_nil_r.
  - rewrite IH. simpl. by rewrite <- app_assoc.
Qed.

Lemma index_known_spec known :
  elements (m_root (index_known known)) ≡ₚ known
  ∧ kd_inv (m_root (index_known known)).
Proof.
  unfold index_known, kdtree_build. simpl.
  rewrite index_known_nodes. simpl. by apply build_nodes_spec.
Qed.

Lemma square_nonneg (x : Q) : (0 <= x * x)%Q.
Proof.
  destruct (Qlt_le_dec x 0) as [Hneg|Hpos].
  - assert (x * x == (- x) * (- x))%Q as -> by ring.
    apply Qmult_le_0_compat; lra.
  - by apply Qmult_le_0_compat.
Qed.

(** The squared offset along any axis is at most the squared distance. *)
Lemma axis_gap_le axis q p :
  ((coord axis q - coord axis p) * (coord axis q - coord axis p)
   <= distance_sq q p)%Q.
Proof.
  unfold distance_sq, coord.
  pose proof (square_nonneg (px q - px p)).
  pose proof (square_nonneg (py q - py p)).
  pose proof (square_nonneg (pz q - pz p)).
  destruct axis as [|[|axis]]; lra.
Qed.

Lemma square_le_away (x y : Q) :
  ((0 <= x ∧ x <= y) ∨ (y <= x ∧ x <= 0))%Q → (x * x <= y * y)%Q.
Proof.
  intros [[Hx Hxy]|[Hyx Hx]].
  - by apply Qmult_le_compat_nonneg.
  - assert (x * x == (- x) * (- x))%Q as -> by ring.
    assert (y * y == (- y) * (- y))%Q as -> by ring.
    apply Qmult_le_compat_nonneg; split; lra.
Qed.

(** A point on the far side of the splitting plane is at least as far from
    the query as the plane is. *)
Lemma plane_gap_le axis q p e :
  ((coord axis q <= coord axis p ∧ coord axis p <= coord axis e)
   ∨ (coord axis e <= coord axis p ∧ coord axis p <= coord axis q))%Q →
  ((coord axis q - coord axis p) * (coord axis q - coord axis p)
   <= distance_sq q e)%Q.
Proof.
  intros Hside. pose proof (axis_gap_le axis q e) as Hgap.
  assert ((coord axis q - coord axis p) * (coord axis q - coord axis p)
          <= (coord axis q - coord axis e) * (coord axis q - coord axis e))%Q
    by (apply square_le_away; destruct Hside; [right|left]; lra).
  lra.
Qed.

Lemma closer_spec q p v best :
  at_most (closer q p v best) (distance_sq q p)
  ∧ (∀ d, at_most best d → at_most (closer q p v best) d)
  ∧ (closer q p v best = best
     ∨ closer q p v best = Some (mkNeighbor p v (distance_sq q p))).
Proof.
  unfold closer. destruct best as [b|].
  - destruct (Qlt_le_dec _ _) as [Hlt|Hge].
    + split_and!; [eexists; split; [done|simpl; lra]| |by right].
      intros d (b' & [= <-] & Hb'). eexists. split; [done|simpl; lra].
    + split_and!; [by exists b| done |by left].
  - split_and!; [eexists; split; [done|simpl; lra]| |by right].
    by intros d (b' & ? & _).
Qed.

Lemma prune_sound delta best d :
  prune delta best = true → (delta * delta <= d)%Q → at_most best d.
Proof.
  unfold prune. destruct best as [b|]; [|done].
  destruct (Qlt_le_dec _ _); [|done]. intros _ Hd. exists b. split; [done|lra].
Qed.

Lemma nearest_from_spec q t : ∀ best,
  kd_inv t →
  (∀ d, at_most best d → at_most (nearest_from t q best) d)
  ∧ (∀ e, e ∈ elements t →
       at_most (nearest_from t q best) (distance_sq q e.1))
  ∧ (nearest_from t q best = best
     ∨ found_in q (elements t) (nearest_from t q best)).
Proof.
  induction t as [|p v axis lo IHlo hi IHhi]; intros best Hinv.
  - split_and!; [done| |by left]. intros e He. by apply elem_of_nil in He.
  - destruct Hinv as (Hlow & Hhigh & Hinvlo & Hinvhi).
    destruct (closer_spec q p v best) as (Hp & Hmono1 & Hsrc1).
    set (best1 := closer q p v best) in *.
    assert (best1 = best ∨ found_in q (elements (Node p v axis lo hi)) best1)
      as Hfrom1.
    { destruct Hsrc1 as [?|Heq]; [by left|right].
      exists (p, v). split; [left|done]. }
    cbn [nearest_from]. fold best1. cbv zeta.
    destruct (Qle_bool (coord axis q) (coord axis p)) eqn:Hside.
    + apply Qle_bool_iff in Hside.
      destruct (IHlo best1 Hinvlo) as (Hmono2 & Hopt2 & Hsrc2).
      set (best2 := nearest_from lo q best1) in *.
      assert (best2 = best
              ∨ found_in q (elements (Node p v axis lo hi)) best2) as Hfrom2.
      { destruct Hsrc2 as [->|(e & He & ->)]; [done|right].
        exists e. split; [|done]. cbn [elements]. right.
        apply elem_of_app. by left. }
      destruct (prune _ best2) eqn:Hprune.
      * split_and!; [auto| |done].
        intros e He. cbn [elements] in He.
        apply elem_of_cons in He as [->|He]; [auto|].
        apply elem_of_app in He as [He|He]; [auto|].
        eapply prune_sound; [done|]. apply plane_gap_le. left.
        split; [done|]. by apply Hhigh.
      * destruct (IHhi best2 Hinvhi) as (Hmono3 & Hopt3 & Hsrc3).
        split_and!; [auto| |].
        -- intros e He. cbn [elements] in He.
           apply elem_of_cons in He as [->|He]; [auto|].
           apply elem_of_app in He as [He|He]; auto.
        -- destruct Hsrc3 as [->|(e & He & ->)]; [done|right].
           exists e. split; [|done]. cbn [elements]. right.
           apply elem_of_app. by right.
    + assert (coord axis p <= coord axis q)%Q as Hside'.
      { destruct (Qlt_le_dec (coord axis p) (coord axis q)) as [?|Hge]; [lra|].
        apply Qle_bool_iff in Hge. congruence. }
      destruct (IHhi best1 Hinvhi) as (Hmono2 & Hopt2 & Hsrc2).
      set (best2 := nearest_from hi q best1) in *.
      assert (best2 = best
              ∨ found_in q (elements (Node p v axis lo hi)) best2) as Hfrom2.
      { destruct Hsrc2 as [->|(e & He & ->)]; [done|right].
        exists e. split; [|done]. cbn [elements]. right.
        apply elem_of_app. by right. }
      destruct (prune _ best2) eqn:Hprune.
      * split_and!; [auto| |done].
        intros e He. cbn [elements] in He.
        apply elem_of_cons in He as [->|He]; [auto|].
        apply elem_of_app in He as [He|He]; [|auto].
        eapply prune_sound; [done|]. apply plane_gap_le. right.
        split; [|done]. by apply Hlow.
      * destruct (IHlo best2 Hinvlo) as (Hmono3 & Hopt3 & Hsrc3).
        split_and!; [auto| |].
        -- intros e He. cbn [elements] in He.
           apply elem_of_cons in He as [->|He]; [auto|].
           apply elem_of_app in He as [He|He]; auto.
        -- destruct Hsrc3 as [->|(e & He & ->)]; [done|right].
           exists e. split; [|done]. cbn [elements]. right.
           apply elem_of_app. by left.
Qed.

Lemma linear_scan_from q pts : ∀ best,
  let r := foldl (λ best e, closer q e.1 e.2 best) best pts in
  (∀ d, at_most best d → at_most r d)
  ∧ (∀ e, e ∈ pts → at_most r (distance_sq q e.1))
  ∧ (r = best ∨ found_in q pts r).
Proof.
  induction pts as [|e pts IH]; intros best; cbn [foldl]; cbv zeta.
  - split_and!; [done| |by left]. intros e He. by apply elem_of_nil in He.
  - destruct (closer_spec q e.1 e.2 best) as (He & Hmono1 & Hsrc1).
    destruct (IH (closer q e.1 e.2 best)) as (Hmono2 & Hopt2 & Hsrc2).
    split_and!; [auto| |].
    + intros e' He'. apply elem_of_cons in He' as [->|He']; auto.
    + destruct Hsrc2 as [->|(e' & He' & ->)].
      * destruct Hsrc1 as [-> | ->]; [by left|right].
        exists e. split; [left|done].
      * right. exists e'. split; [by right|done].
Qed.

(** What both searches deliver on a non-empty point set: a known point at
    the least squared distance from the query. *)
Lemma minimum_found q (pts : list (Point * Q)) (r : option neighbor) :
  pts ≠ [] →
  (∀ e, e ∈ pts → at_most r (distance_sq q e.1)) →
  r = None ∨ found_in q pts r →
  ∃ nn, r = Some nn
        ∧ (nn_point nn, nn_value nn) ∈ pts
        ∧ nn_distance nn = distance_sq q (nn_point nn)
        ∧ ∀ e, e ∈ pts → (nn_distance nn <= distance_sq q e.1)%Q.
Proof.
  intros Hne Hopt Hsrc. destruct pts as [|e0 pts]; [done|].
  destruct (Hopt e0 ltac:(left)) as (nn & -> & _).
  destruct Hsrc as [?|([p v] & He & [= ->])]; [done|].
  exists (mkNeighbor p v (distance_sq q p)). split_and!; try done.
  intros e' He'. by destruct (Hopt e' He') as (b & [= <-] & Hb).
Qed.

(** C9: on a non-empty set of known points the nearest-neighbour query of
    the index returns one of the known points, with its value and its
    squared distance to the query, and this distance is the least over all
    known points: it equals the distance found by the exhaustive linear
    scan. *)
Theorem nearest_iterative_matches_linear_scan known q :
  known ≠ [] →
  ∃ nn ls,
    nearest_iterative (index_known known) q = Some nn
    ∧ linear_scan known q = Some ls
    ∧ (nn_point nn, nn_value nn) ∈ known
    ∧ nn_distance nn = distance_sq q (nn_point nn)
    ∧ (∀ e, e ∈ known → (nn_distance nn <= distance_sq q e.1)%Q)
    ∧ (nn_distance nn == nn_distance ls)%Q.
Proof.
  intros Hne.
  destruct (index_known_spec known) as [Hel Hinv].
  destruct (nearest_from_spec q _ None Hinv) as (_ & Hopt & Hsrc).
  destruct (minimum_found q known (nearest_iterative (index_known known) q))
    as (nn & Hnn & Hin & Hd & Hmin); [done| | |].
  { intros e He. apply Hopt. by rewrite Hel. }
  { destruct Hsrc as [?|(e & He & ?)]; [by left|right].
    exists e. split; [by rewrite <- Hel|done]. }
  destruct (linear_scan_from q known None) as (_ & Hopt' & Hsrc').
  destruct (minimum_found q known (linear_scan known q))
    as (ls & Hls & Hin' & Hd' & Hmin'); [done..|].
  exists nn, ls. split_and!; try done.
  apply Qle_antisym.
  - rewrite Hd'. apply (Hmin (nn_point ls, nn_value ls) Hin').
  - rewrite Hd. apply (Hmin' (nn_point nn, nn_value nn) Hin).
Qed.

Lemma nearest_iterative_matches_linear_scan_witness :
  ∃ nn ls,
    nearest_iterative
      (index_known [(pt 0 0 0, 10%Q); (pt 5 5 5, 20%Q)]) (pt 4 1 3) = Some nn
    ∧ linear_scan [(pt 0 0 0, 10%Q); (pt 5 5 5, 20%Q)] (pt 4 1 3) = Some ls
    ∧ (nn_distance nn == nn_distance ls)%Q.
Proof.
  destruct (nearest_iterative_matches_linear_scan
              [(pt 0 0 0, 10%Q); (pt 5 5 5, 20%Q)] (pt 4 1 3))
    as (nn & ls & Hnn & Hls & _ & _ & _ & Heq).
  - discriminate.
  - by exists nn, ls.
Defined.

(** ** The region-of-interest bounds *)

Lemma roi_max_exact x roi_radius n :
  0 ≤ x < n → 0 ≤ roi_radius ≤ INT_MAX → n ≤ 2 ^ 63 →
  roi_max x roi_radius n = Z.min (x + roi_radius) (n - 1).
Proof.
  unfold roi_max, clamp, INT_MAX. intros Hx Hr Hn.
  rewrite !wrap_small by (unfold SIZE_MAX; lia).
  destruct (Z.ltb_spec (x + roi_radius) 0); [lia|].
  destruct (Z.gtb_spec (x + roi_radius) (n - 1)); lia.
Qed.

Lemma roi_min_exact x roi_radius n :
  0 ≤ roi_radius ≤ x → x < n → n ≤ 2 ^ 63 →
  roi_min x roi_radius n = Z.max 0 (x - roi_radius).
Proof.
  unfold roi_min, clamp. intros Hr Hx Hn.
  rewrite !wrap_small by (unfold SIZE_MAX; lia).
  destruct (Z.ltb_spec (x - roi_radius) 0); [lia|].
  destruct (Z.gtb_spec (x - roi_radius) (n - 1)); lia.
Qed.

(** C2: when the search radius exceeds the cell index, [i - roi_radius]
    wraps around in [std::size_t] and the clamp returns the upper limit
    [n - 1] as the lower bound of the box, where saturation would give
    [max(0, i - roi_radius) = 0]. *)
Theorem roi_min_wraps x roi_radius n :
  0 ≤ x < roi_radius → roi_radius ≤ INT_MAX → x < n → n ≤ 2 ^ 63 →
  roi_min x roi_radius n = n - 1 ∧ Z.max 0 (x - roi_radius) = 0.
Proof.
  unfold roi_min, clamp, INT_MAX. intros Hx Hr Hxn Hn. split; [|lia].
  assert (wrap (x - roi_radius) = 2 ^ 64 + (x - roi_radius)) as ->.
  { unfold wrap. symmetry. apply (Z.mod_unique_pos _ _ (-1)); lia. }
  rewrite wrap_small by (unfold SIZE_MAX; lia).
  destruct (Z.ltb_spec (2 ^ 64 + (x - roi_radius)) 0); [lia|].
  destruct (Z.gtb_spec (2 ^ 64 + (x - roi_radius)) (n - 1)); lia.
Qed.

Lemma roi_min_wraps_witness :
  roi_min 0 1 3 = 2 ∧ Z.max 0 (0 - 1) = 0.
Proof.
  apply (roi_min_wraps 0 1 3); unfold INT_MAX; lia.
Defined.

(** ** Runs of the call on small inputs *)

(** C1: with one known point at [(0,0,0)] of value 10 on a 2x1x1 grid, the
    cell [(1,0,0)] has squared distance 1 and radius 1, its box is
    [0..1] x [0..0] x [0..0], and both candidates [(0,0,0)] and [(1,0,0)]
    pass the distance test; the two additions and the two increments all go
    to flat index 1, the cell [(1,0,0)] itself, and the candidate
    [(0,0,0)] at flat index 0 receives nothing. *)
Theorem scatter_cell_writes_own_index :
  let tree := index_known [(pt 0 0 0, 10%Q)] in
  nearest_iterative tree (pt 1 0 0) = Some (mkNeighbor (pt 0 0 0) 10 1)
  ∧ ceil_sqrt 1 = 1
  ∧ (roi_min 1 1 2, roi_max 1 1 2) = (0, 1)
  ∧ (roi_min 0 1 1, roi_max 0 1 1) = (0, 0)
  ∧ Qle_bool (inject_Z (delta_sq 1 0) + inject_Z (delta_sq 0 0)
              + inject_Z (delta_sq 0 0)) 1 = true
  ∧ flat_index 1 1 0 0 0 = 0
  ∧ flat_index 1 1 1 0 0 = 1
  ∧ scatter_cell tree 2 1 1 1 0 0 (mkBuffers [0; 0]%Q [0; 0]%Q [])
    = Returned (mkBuffers [0; 20]%Q [0; 2]%Q [Accum 1 10; Accum 1 10]).
Proof. vm_compute. by repeat split. Qed.

(** C3: with the single known point [(1,0,0)] of value 7 on a 3x1x1 grid
    and zero-filled buffers, the lower bound of the box of cell [(0,0,0)]
    wraps to 2 while its upper bound is 1, so the cell scans no candidate:
    its counter stays 0 and its value stays 0 instead of 7. *)
Theorem single_point_cell_left_uncounted :
  let tree := index_known [(pt 1 0 0, 7%Q)] in
  (roi_min 0 1 3, roi_max 0 1 3) = (2, 1)
  ∧ scatter_cell tree 3 1 1 0 0 0 (mkBuffers [0; 0; 0]%Q [0; 0; 0]%Q [])
    = Returned (mkBuffers [0; 0; 0]%Q [0; 0; 0]%Q [])
  ∧ ∃ st,
      cnaturalneighbor_griddata [pt 1 0 0] [7%Q] (zeros 3 1 1) (zeros 3 1 1)
      = Returned st
      ∧ contribution_counter st = [0; 1; 2]%Q
      ∧ interp_values st !! 0%nat = Some 0%Q.
Proof.
  cbv zeta. split_and!; [by vm_compute..|].
  eexists. split; [by vm_compute|]. by split.
Qed.

(** C4: with no known point and a grid that has a cell, the query for the
    first cell finds nothing and the code reads the distance of the missing
    result: the call faults instead of returning. *)
Theorem griddata_empty_known_faults known_values iv cc ni nj nk :
  nd_shape iv = (ni, nj, nk) → 0 < ni → 0 < nj → 0 < nk →
  cnaturalneighbor_griddata [] known_values iv cc = Fault NoData.
Proof.
  intros Hshape Hni Hnj Hnk. unfold cnaturalneighbor_griddata.
  simpl. rewrite Hshape. unfold scatter_pass, for_below.
  rewrite (seqZ_cons 0 ni), (seqZ_cons 0 nj), (seqZ_cons 0 nk) by done.
  done.
Qed.

Lemma griddata_empty_known_faults_witness :
  cnaturalneighbor_griddata [] [] (zeros 1 1 1) (zeros 1 1 1)
  = Fault NoData.
Proof.
  apply (griddata_empty_known_faults [] (zeros 1 1 1) (zeros 1 1 1) 1 1 1);
    reflexivity || lia.
Defined.

(** C5, amended: the call compares neither the lengths of the two known
    sequences nor the shapes of the two buffers. The number of known points
    is the number of coordinate rows and the grid is the shape of the
    accumulator: known values beyond that number and the shape declared by
    the counter buffer have no effect on the call. *)
Theorem griddata_validates_nothing known_coords known_values iv cc shape :
  (length known_coords ≤ length known_values)%nat →
  cnaturalneighbor_griddata known_coords known_values iv cc
  = cnaturalneighbor_griddata known_coords
      (take (length known_coords) known_values) iv
      (mkArray shape (nd_data cc)).
Proof.
  intros Hlen. unfold cnaturalneighbor_griddata.
  assert (load_known known_coords (take (length known_coords) known_values)
          = load_known known_coords known_values) as ->; [|done].
  unfold load_known. apply for_each_ext. intros i vec Hi.
  apply elem_of_seq in Hi. by rewrite lookup_take_lt by lia.
Qed.

Lemma griddata_validates_nothing_witness :
  cnaturalneighbor_griddata [pt 0 0 0] [5%Q; 99%Q]
    (zeros 1 1 1) (mkArray (2, 1, 1) [0%Q; 0%Q])
  = cnaturalneighbor_griddata [pt 0 0 0] [5%Q]
      (zeros 1 1 1) (mkArray (1, 1, 1) [0%Q; 0%Q]).
Proof.
  apply (griddata_validates_nothing [pt 0 0 0] [5%Q; 99%Q] (zeros 1 1 1)
           (mkArray (2, 1, 1) [0%Q; 0%Q]) (1, 1, 1)).
  simpl. lia.
Defined.

(** C5 as stated fails: with one coordinate row but two known values, and a
    counter buffer of shape 2x1x1 next to an accumulator of shape 1x1x1, the
    call is not rejected; it returns after writing both buffers. *)
Lemma mismatched_inputs_are_processed :
  length [pt 0 0 0] ≠ length [5%Q; 99%Q]
  ∧ nd_shape (zeros 1 1 1) ≠ nd_shape (mkArray (2, 1, 1) [0%Q; 0%Q])
  ∧ cnaturalneighbor_griddata [pt 0 0 0] [5%Q; 99%Q]
      (zeros 1 1 1) (mkArray (2, 1, 1) [0%Q; 0%Q])
    = Returned (mkBuffers [5%Q] [1%Q; 0%Q] [Normalize 0; Accum 0 5]).
Proof. split_and!; [done|done|by vm_compute]. Qed.

(** C8: known points [(0,0,0)] with value 10 and [(5,5,5)] with value 20,
    grid 6x6x6, zero-filled buffers. The cell [(0,0,0)] finds the known
    point [(0,0,0)] at squared distance 0, has radius 0, makes exactly one
    addition, to its own flat index 0, and ends with value 10 and counter
    1; the cell [(5,5,5)], at flat index 215, finds [(5,5,5)] and ends with
    value 20 and counter 1. *)
Theorem example_two_known_points :
  let known_coords := [pt 0 0 0; pt 5 5 5] in
  let known_values := [10%Q; 20%Q] in
  let tree := index_known (zip known_coords known_values) in
  let st0 := mkBuffers (nd_data (zeros 6 6 6)) (nd_data (zeros 6 6 6)) [] in
  nearest_iterative tree (pt 0 0 0) = Some (mkNeighbor (pt 0 0 0) 10 0)
  ∧ nearest_iterative tree (pt 5 5 5) = Some (mkNeighbor (pt 5 5 5) 20 0)
  ∧ ceil_sqrt 0 = 0
  ∧ (roi_min 0 0 6, roi_max 0 0 6) = (0, 0)
  ∧ (roi_min 5 0 6, roi_max 5 0 6) = (5, 5)
  ∧ (∃ st1, scatter_cell tree 6 6 6 0 0 0 st0 = Returned st1
            ∧ trace st1 = [Accum 0 10])
  ∧ (∃ st1, scatter_cell tree 6 6 6 5 5 5 st0 = Returned st1
            ∧ trace st1 = [Accum 215 20])
  ∧ ∃ st,
      cnaturalneighbor_griddata known_coords known_values
        (zeros 6 6 6) (zeros 6 6 6) = Returned st
      ∧ interp_values st !! 0%nat = Some 10%Q
      ∧ contribution_counter st !! 0%nat = Some 1%Q
      ∧ added_to 0 (trace st) = [10%Q]
      ∧ interp_values st !! 215%nat = Some 20%Q
      ∧ contribution_counter st !! 215%nat = Some 1%Q
      ∧ added_to 215 (trace st) = [20%Q].
Proof.
  cbv zeta. split_and!; [by vm_compute..| | |].
  - eexists. split; [by vm_compute|done].
  - eexists. split; [by vm_compute|done].
  - eexists. split; [by vm_compute|]. split_and!; by vm_compute.
Qed.

(** * Further properties of the code *)

(** ** [clamp] and the box bounds *)

(** X1: for limits in order, [clamp] returns a value between the limits,
    returns its argument when that already lies between them, and clamping
    twice is clamping once. *)
Theorem clamp_range val min max :
  min ≤ max →
  min ≤ clamp val min max ≤ max
  ∧ (min ≤ val ≤ max → clamp val min max = val)
  ∧ clamp (clamp val min max) min max = clamp val min max.
Proof.
  intros Hle. unfold clamp.
  destruct (Z.ltb_spec val min), (Z.gtb_spec val max);
    repeat match goal with
           | |- context [?a <? ?b] => destruct (Z.ltb_spec a b)
           | |- context [?a >? ?b] => destruct (Z.gtb_spec a b)
           end; lia.
Qed.

Lemma clamp_range_witness :
  0 ≤ clamp 7 0 2 ≤ 2
  ∧ (0 ≤ 7 ≤ 2 → clamp 7 0 2 = 7)
  ∧ clamp (clamp 7 0 2) 0 2 = clamp 7 0 2.
Proof. apply (clamp_range 7 0 2). lia. Defined.

(** X2: on an axis with at least one cell, both bounds of the box are
    indices of the grid, whatever the cell index and the radius are: the
    wrap-around of [i - roi_radius] or [i + roi_radius] never takes a bound
    out of [0 .. n-1]. *)
Theorem roi_bounds_in_grid x roi_radius n :
  1 ≤ n ≤ SIZE_MAX →
  0 ≤ roi_min x roi_radius n ≤ n - 1
  ∧ 0 ≤ roi_max x roi_radius n ≤ n - 1.
Proof.
  intros Hn. unfold roi_min, roi_max, clamp.
  rewrite (wrap_small (n - 1)) by lia.
  pose proof (wrap_range (x - roi_radius)).
  pose proof (wrap_range (x + roi_radius)).
  destruct (Z.ltb_spec (wrap (x - roi_radius)) 0),
           (Z.gtb_spec (wrap (x - roi_radius)) (n - 1)),
           (Z.ltb_spec (wrap (x + roi_radius)) 0),
           (Z.gtb_spec (wrap (x + roi_radius)) (n - 1)); lia.
Qed.

Lemma roi_bounds_in_grid_witness :
  0 ≤ roi_min 0 5 3 ≤ 3 - 1 ∧ 0 ≤ roi_max 0 5 3 ≤ 3 - 1.
Proof. apply (roi_bounds_in_grid 0 5 3). unfold SIZE_MAX. lia. Defined.

(** X3: when the radius does not exceed the cell index, the box on that
    axis is the interval [i - r .. min(i + r, n - 1)] and contains the cell
    itself. *)
Theorem roi_box_without_underflow x roi_radius n :
  0 ≤ roi_radius ≤ x → roi_radius ≤ INT_MAX → x < n → n ≤ 2 ^ 63 →
  roi_min x roi_radius n = x - roi_radius
  ∧ roi_max x roi_radius n = Z.min (x + roi_radius) (n - 1)
  ∧ roi_min x roi_radius n ≤ x ≤ roi_max x roi_radius n.
Proof.
  intros Hr Hmax Hx Hn.
  rewrite roi_min_exact, roi_max_exact by lia. lia.
Qed.

Lemma roi_box_without_underflow_witness :
  roi_min 4 2 6 = 4 - 2
  ∧ roi_max 4 2 6 = Z.min (4 + 2) (6 - 1)
  ∧ roi_min 4 2 6 ≤ 4 ≤ roi_max 4 2 6.
Proof. apply (roi_box_without_underflow 4 2 6); unfold INT_MAX; lia. Defined.

Lemma roi_min_underflow x roi_radius n :
  0 ≤ x < roi_radius → roi_radius ≤ INT_MAX → x < n → n ≤ 2 ^ 63 →
  roi_min x roi_radius n = n - 1.
Proof.
  unfold roi_min, clamp, INT_MAX. intros Hx Hr Hxn Hn.
  assert (wrap (x - roi_radius) = 2 ^ 64 + (x - roi_radius)) as ->.
  { unfold wrap. symmetry. apply (Z.mod_unique_pos _ _ (-1)); lia. }
  rewrite wrap_small by (unfold SIZE_MAX; lia).
  destruct (Z.ltb_spec (2 ^ 64 + (x - roi_radius)) 0); [lia|].
  destruct (Z.gtb_spec (2 ^ 64 + (x - roi_radius)) (n - 1)); lia.
Qed.

(** X4: when the radius exceeds the cell index, the box on that axis is
    empty unless [i + r] reaches the last index, in which case it is the
    last index alone; it contains the cell itself only when the cell is the
    last one. *)
Theorem roi_box_with_underflow x roi_radius n :
  0 ≤ x < roi_radius → roi_radius ≤ INT_MAX → x < n → n ≤ 2 ^ 63 →
  seqZ (roi_min x roi_radius n)
       (roi_max x roi_radius n + 1 - roi_min x roi_radius n)
  = if decide (n - 1 ≤ x + roi_radius) then [n - 1] else [].
Proof.
  intros Hx Hr Hxn Hn.
  rewrite roi_min_underflow by lia.
  rewrite roi_max_exact by lia.
  destruct (decide (n - 1 ≤ x + roi_radius)).
  - rewrite Z.min_r by lia.
    replace (n - 1 + 1 - (n - 1)) with 1 by lia. done.
  - rewrite seqZ_nil; [done|lia].
Qed.

Lemma roi_box_with_underflow_witness :
  seqZ (roi_min 0 1 3) (roi_max 0 1 3 + 1 - roi_min 0 1 3)
  = if decide (3 - 1 ≤ 0 + 1) then [3 - 1] else [].
Proof. apply (roi_box_with_underflow 0 1 3); unfold INT_MAX; lia. Defined.

(** ** The flat index and the squared differences *)

Lemma flat_offset_inj nj nk i j k i' j' k' :
  0 ≤ j < nj → 0 ≤ k < nk → 0 ≤ j' < nj → 0 ≤ k' < nk →
  nj * nk * i + nk * j + k = nj * nk * i' + nk * j' + k' →
  i = i' ∧ j = j' ∧ k = k'.
Proof.
  intros Hj Hk Hj' Hk' Heq.
  destruct (Z.div_mod_unique nk (nj * i + j) (nj * i' + j') k k')
    as [Hq ->]; [lia|lia|lia|].
  destruct (Z.div_mod_unique nj i i' j j') as [-> ->]; [lia|lia|lia|].
  done.
Qed.

Lemma flat_index_inj ni nj nk i j k i' j' k' :
  grid_ok ni nj nk →
  in_grid ni nj nk i j k → in_grid ni nj nk i' j' k' →
  flat_index nj nk i j k = flat_index nj nk i' j' k' →
  i = i' ∧ j = j' ∧ k = k'.
Proof.
  intros Hok Hin Hin'.
  rewrite !(flat_index_exact ni nj nk) by done.
  destruct Hin as (_ & ? & ?), Hin' as (_ & ? & ?).
  by apply flat_offset_inj.
Qed.

Lemma flat_index_onto ni nj nk n :
  grid_ok ni nj nk → 0 ≤ n < ni * nj * nk →
  ∃ i j k, in_grid ni nj nk i j k ∧ flat_index nj nk i j k = n.
Proof.
  intros Hok Hn. pose proof Hok as (Hni & Hnj & Hnk & _).
  assert (0 ≤ nj * nk) by (apply Z.mul_nonneg_nonneg; lia).
  assert (n ∈ seqZ 0 (ni * (nj * nk))) as Hel by (apply elem_of_seqZ; lia).
  rewrite <- (seqZ_rows_Z ni 0 (nj * nk)) in Hel by lia.
  apply list_elem_of_bind in Hel as (i & Hel & Hi).
  apply elem_of_seqZ in Hi.
  rewrite Z.add_0_l, <- (seqZ_rows_Z nj (nj * nk * i) nk) in Hel by lia.
  apply list_elem_of_bind in Hel as (j & Hel & Hj).
  apply elem_of_seqZ in Hj, Hel.
  exists i, j, (n - (nj * nk * i + nk * j)).
  assert (in_grid ni nj nk i j (n - (nj * nk * i + nk * j)))
    by (unfold in_grid; lia).
  split; [done|]. rewrite (flat_index_exact ni nj nk) by done. lia.
Qed.

(** X5: on a grid of at most [SIZE_MAX] cells the index expression
    [nj*nk*i + nk*j + k] is one-to-one from the cells of the grid onto the
    positions [0 .. ni*nj*nk - 1] of the buffers: two different cells never
    share a position and every position belongs to a cell. *)
Theorem flat_index_bijective ni nj nk :
  grid_ok ni nj nk →
  (∀ i j k i' j' k',
     in_grid ni nj nk i j k → in_grid ni nj nk i' j' k' →
     flat_index nj nk i j k = flat_index nj nk i' j' k' →
     (i, j, k) = (i', j', k'))
  ∧ (∀ n, 0 ≤ n < ni * nj * nk →
       ∃ i j k, in_grid ni nj nk i j k ∧ flat_index nj nk i j k = n).
Proof.
  intros Hok. split.
  - intros i j k i' j' k' Hin Hin' Heq.
    by destruct (flat_index_inj _ _ _ _ _ _ _ _ _ Hok Hin Hin' Heq)
      as (-> & -> & ->).
  - intros n Hn. by apply flat_index_onto.
Qed.

Lemma flat_index_bijective_witness :
  (∀ i j k i' j' k',
     in_grid 2 3 4 i j k → in_grid 2 3 4 i' j' k' →
     flat_index 3 4 i j k = flat_index 3 4 i' j' k' →
     (i, j, k) = (i', j', k'))
  ∧ (∀ n, 0 ≤ n < 2 * 3 * 4 →
       ∃ i j k, in_grid 2 3 4 i j k ∧ flat_index 3 4 i j k = n).
Proof.
  apply (flat_index_bijective 2 3 4). unfold grid_ok, SIZE_MAX. lia.
Defined.

(** X6: the squared index difference computed in [std::size_t] is the true
    square also when the candidate index is larger than the cell index: the
    wrap-around of the subtraction cancels in the product, for differences
    below [2^32]. *)
Theorem delta_sq_is_square x x_roi :
  - 2 ^ 32 < x - x_roi < 2 ^ 32 →
  delta_sq x x_roi = (x - x_roi) * (x - x_roi)
  ∧ delta_sq x x_roi = delta_sq x_roi x.
Proof.
  intros Hd. rewrite !delta_sq_exact by lia. split; [done|lia].
Qed.

Lemma delta_sq_is_square_witness :
  delta_sq 0 3 = (0 - 3) * (0 - 3) ∧ delta_sq 0 3 = delta_sq 3 0.
Proof. apply (delta_sq_is_square 0 3). lia. Defined.

(** ** The effect of one cell's scan *)

Lemma for_each_box3 {S : Type} (l1 l2 l3 : list Z)
    (body : Z → Z → Z → S → outcome S) st :
  for_each l1 (λ a, for_each l2 (λ b, for_each l3 (body a b))) st
  = for_each (box3 l1 l2 l3) (λ t, body t.1.1 t.1.2 t.2) st.
Proof.
  unfold box3. rewrite <- for_each_nested.
  apply for_each_ext. intros a s1 _. rewrite <- for_each_nested.
  apply for_each_ext. intros b s2 _. by rewrite for_each_fmap.
Qed.

Lemma elem_of_box3 l1 l2 l3 a b c :
  (a, b, c) ∈ box3 l1 l2 l3 ↔ a ∈ l1 ∧ b ∈ l2 ∧ c ∈ l3.
Proof.
  unfold box3. rewrite list_elem_of_bind. split.
  - intros (a' & Hel & Ha). apply list_elem_of_bind in Hel as (b' & Hel & Hb).
    apply list_elem_of_fmap in Hel as (c' & [= -> -> ->] & Hc). done.
  - intros (Ha & Hb & Hc). exists a. split; [|done].
    apply list_elem_of_bind. exists b. split; [|done].
    apply list_elem_of_fmap. by exists c.
Qed.

Lemma iter_shift {A : Type} (f : A → A) (h : nat) (x : A) :
  Nat.iter h f (f x) = f (Nat.iter h f x).
Proof. induction h as [|h IH]; simpl; [done|]. by rewrite IH. Qed.

Lemma accumulate_returns indice v st :
  (Z.to_nat indice < length (interp_values st))%nat →
  (Z.to_nat indice < length (contribution_counter st))%nat →
  accumulate indice v st
  = Returned
      {| interp_values :=
           alter (λ a, a + v)%Q (Z.to_nat indice) (interp_values st);
         contribution_counter :=
           alter (λ c, c + 1)%Q (Z.to_nat indice) (contribution_counter st);
         trace := Accum (Z.to_nat indice) v :: trace st |}.
Proof. intros Ha Hc. unfold accumulate. by rewrite decide_True. Qed.

(** A loop whose body either adds [v] at [indice] or does nothing performs
    as many additions as its test has hits. *)
Lemma for_each_accumulate {A : Type} (f : A → bool) indice v (l : list A) :
  ∀ st,
    (Z.to_nat indice < length (interp_values st))%nat →
    (Z.to_nat indice < length (contribution_counter st))%nat →
    for_each l (λ c st, if f c then accumulate indice v st else Returned st)
      st
    = Returned
        {| interp_values :=
             alter (Nat.iter (length (filter (λ c, Is_true (f c)) l))
                      (λ a, a + v)%Q)
               (Z.to_nat indice) (interp_values st);
           contribution_counter :=
             alter (Nat.iter (length (filter (λ c, Is_true (f c)) l))
                      (λ c, c + 1)%Q)
               (Z.to_nat indice) (contribution_counter st);
           trace :=
             replicate (length (filter (λ c, Is_true (f c)) l))
               (Accum (Z.to_nat indice) v) ++ trace st |}.
Proof.
  induction l as [|c l IH]; intros st Ha Hc.
  - simpl. rewrite !list_alter_id by done. by destruct st.
  - cbn [for_each]. rewrite filter_cons. destruct (f c) eqn:Hf.
    + rewrite decide_True by done.
      rewrite accumulate_returns by done. cbn [mbind outcome_bind].
      rewrite IH by (simpl; by rewrite length_alter). cbn [length].
      f_equal. simpl. f_equal.
      * rewrite list_alter_alter_eq. apply list_alter_ext; [|done].
        intros a _. apply (iter_shift (λ a, (a + v)%Q)).
      * rewrite list_alter_alter_eq. apply list_alter_ext; [|done].
        intros a _. apply (iter_shift (λ c, (c + 1)%Q)).
      * change (Accum (Z.to_nat indice) v :: trace st)
          with ([Accum (Z.to_nat indice) v] ++ trace st).
        rewrite app_assoc.
        change [Accum (Z.to_nat indice) v]
          with (replicate 1 (Accum (Z.to_nat indice) v)).
        rewrite <- replicate_add, Nat.add_1_r. done.
    + rewrite decide_False by (by intros []). cbn [mbind outcome_bind].
      by apply IH.
Qed.

Lemma scatter_cell_effect tree ni nj nk i j k nn st :
  nearest_iterative tree (pt i j k) = Some nn →
  ceil_sqrt (nn_distance nn) ≤ INT_MAX →
  (Z.to_nat (flat_index nj nk i j k) < length (interp_values st))%nat →
  (Z.to_nat (flat_index nj nk i j k) < length (contribution_counter st))%nat →
  scatter_cell tree ni nj nk i j k st
  = Returned
      {| interp_values :=
           alter (Nat.iter (roi_hits ni nj nk i j k (nn_distance nn))
                    (λ a, a + nn_value nn)%Q)
             (Z.to_nat (flat_index nj nk i j k)) (interp_values st);
         contribution_counter :=
           alter (Nat.iter (roi_hits ni nj nk i j k (nn_distance nn))
                    (λ c, c + 1)%Q)
             (Z.to_nat (flat_index nj nk i j k)) (contribution_counter st);
         trace :=
           replicate (roi_hits ni nj nk i j k (nn_distance nn))
             (Accum (Z.to_nat (flat_index nj nk i j k)) (nn_value nn))
           ++ trace st |}.
Proof.
  intros Hnn Hr Ha Hc. unfold scatter_cell.
  change (mkPoint (inject_Z i) (inject_Z j) (inject_Z k)) with (pt i j k).
  rewrite Hnn. cbv zeta.
  destruct (Z.ltb_spec INT_MAX (ceil_sqrt (nn_distance nn))); [lia|].
  unfold for_upto.
  rewrite (for_each_box3 _ _ _
             (λ i_roi j_roi k_roi st,
                if Qle_bool
                     (inject_Z (delta_sq i i_roi) + inject_Z (delta_sq j j_roi)
                      + inject_Z (delta_sq k k_roi)) (nn_distance nn)
                then accumulate (flat_index nj nk i j k) (nn_value nn) st
                else Returned st)).
  by rewrite (for_each_accumulate (in_sphere i j k (nn_distance nn))).
Qed.

(** ** The effect of the scatter loops *)

Lemma scatter_pass_cells tree ni nj nk st :
  scatter_pass tree ni nj nk st
  = for_each (grid_cells ni nj nk)
      (λ c, scatter_cell tree ni nj nk c.1.1 c.1.2 c.2) st.
Proof.
  unfold scatter_pass, for_below, grid_cells.
  by rewrite (for_each_box3 _ _ _ (scatter_cell tree ni nj nk)).
Qed.

Lemma scatter_cell_returned tree ni nj nk c st st1 :
  (cell_index nj nk c < length (interp_values st))%nat →
  (cell_index nj nk c < length (contribution_counter st))%nat →
  scatter_cell tree ni nj nk c.1.1 c.1.2 c.2 st = Returned st1 →
  query_ok tree c
  ∧ st1 = {| interp_values :=
               alter (Nat.iter (cell_hits tree ni nj nk c)
                        (λ a, a + cell_value tree c)%Q)
                 (cell_index nj nk c) (interp_values st);
             contribution_counter :=
               alter (Nat.iter (cell_hits tree ni nj nk c) (λ c, c + 1)%Q)
                 (cell_index nj nk c) (contribution_counter st);
             trace :=
               replicate (cell_hits tree ni nj nk c)
                 (Accum (cell_index nj nk c) (cell_value tree c))
               ++ trace st |}.
Proof.
  intros Ha Hc Hrun. unfold query_ok, cell_hits, cell_value.
  destruct (nearest_iterative tree (pt c.1.1 c.1.2 c.2)) as [nn|] eqn:Hnn.
  - destruct (Z.le_gt_cases (ceil_sqrt (nn_distance nn)) INT_MAX) as [Hr|Hr].
    + rewrite (scatter_cell_effect _ _ _ _ _ _ _ nn) in Hrun by done.
      injection Hrun as <-. split; [by exists nn|done].
    + unfold scatter_cell in Hrun.
      change (mkPoint (inject_Z c.1.1) (inject_Z c.1.2) (inject_Z c.2))
        with (pt c.1.1 c.1.2 c.2) in Hrun.
      rewrite Hnn in Hrun. cbv zeta in Hrun.
      destruct (Z.ltb_spec INT_MAX (ceil_sqrt (nn_distance nn))); [done|lia].
  - unfold scatter_cell in Hrun.
    change (mkPoint (inject_Z c.1.1) (inject_Z c.1.2) (inject_Z c.2))
      with (pt c.1.1 c.1.2 c.2) in Hrun.
    by rewrite Hnn in Hrun.
Qed.

Lemma added_to_replicate n m h v tr :
  added_to n (replicate h (Accum m v) ++ tr)
  = (if decide (m = n) then replicate h v else []) ++ added_to n tr.
Proof.
  rewrite added_to_app. f_equal.
  induction h as [|h IH]; simpl.
  - by destruct (decide (m = n)).
  - unfold added_to in *. simpl. rewrite IH.
    by destruct (decide (m = n)).
Qed.

Lemma scatter_cells_effect tree ni nj nk l : ∀ st st',
  (∀ c, c ∈ l → (cell_index nj nk c < length (interp_values st))%nat
                ∧ (cell_index nj nk c < length (contribution_counter st))%nat) →
  for_each l (λ c, scatter_cell tree ni nj nk c.1.1 c.1.2 c.2) st
  = Returned st' →
  (∀ c, c ∈ l → query_ok tree c)
  ∧ length (interp_values st') = length (interp_values st)
  ∧ length (contribution_counter st') = length (contribution_counter st)
  ∧ (∀ n, (∀ c, c ∈ l → cell_index nj nk c ≠ n) →
       interp_values st' !! n = interp_values st !! n
       ∧ contribution_counter st' !! n = contribution_counter st !! n
       ∧ added_to n (trace st') = added_to n (trace st))
  ∧ (NoDup (cell_index nj nk <$> l) → ∀ c, c ∈ l →
       interp_values st' !! cell_index nj nk c
       = Nat.iter (cell_hits tree ni nj nk c) (λ a, a + cell_value tree c)%Q
           <$> interp_values st !! cell_index nj nk c
       ∧ contribution_counter st' !! cell_index nj nk c
         = Nat.iter (cell_hits tree ni nj nk c) (λ c, c + 1)%Q
             <$> contribution_counter st !! cell_index nj nk c
       ∧ added_to (cell_index nj nk c) (trace st')
         = replicate (cell_hits tree ni nj nk c) (cell_value tree c)
           ++ added_to (cell_index nj nk c) (trace st)).
Proof.
  induction l as [|c0 l IH]; intros st st' Hsize Hrun.
  - injection Hrun as <-. split_and!; try done.
    + intros c Hc. by apply elem_of_nil in Hc.
    + intros _ c Hc. by apply elem_of_nil in Hc.
  - cbn [for_each] in Hrun.
    destruct (scatter_cell tree ni nj nk c0.1.1 c0.1.2 c0.2 st)
      as [st1|] eqn:Hcell; [|done]. cbn [mbind outcome_bind] in Hrun.
    destruct (Hsize c0 ltac:(left)) as [Ha0 Hc0].
    destruct (scatter_cell_returned _ _ _ _ _ _ _ Ha0 Hc0 Hcell)
      as [Hok0 Hst1].
    assert (length (interp_values st1) = length (interp_values st)) as Hla
      by (rewrite Hst1; simpl; by rewrite length_alter).
    assert (length (contribution_counter st1)
            = length (contribution_counter st)) as Hlc
      by (rewrite Hst1; simpl; by rewrite length_alter).
    destruct (IH st1 st') as (Hoks & Hla' & Hlc' & Hframe & Hcells);
      [|done|].
    { intros c Hc. rewrite Hla, Hlc. apply Hsize. by right. }
    assert (∀ n, cell_index nj nk c0 ≠ n →
              interp_values st1 !! n = interp_values st !! n
              ∧ contribution_counter st1 !! n = contribution_counter st !! n
              ∧ added_to n (trace st1) = added_to n (trace st)) as Hframe0.
    { intros n Hne. rewrite Hst1. simpl.
      rewrite !list_lookup_alter_ne by done.
      rewrite added_to_replicate, decide_False by done. done. }
    split_and!.
    + intros c Hc. apply elem_of_cons in Hc as [->|Hc]; auto.
    + by rewrite Hla'.
    + by rewrite Hlc'.
    + intros n Hn.
      destruct (Hframe n) as (-> & -> & ->);
        [intros c Hc; apply Hn; by right|].
      apply Hframe0, Hn. left.
    + intros Hnd c Hc. rewrite fmap_cons in Hnd.
      apply NoDup_cons in Hnd as [Hnotin Hnd].
      apply elem_of_cons in Hc as [->|Hc].
      * destruct (Hframe (cell_index nj nk c0)) as (-> & -> & ->).
        { intros c Hc Heq. apply Hnotin. rewrite <- Heq.
          apply list_elem_of_fmap. by exists c. }
        rewrite Hst1. simpl. rewrite !list_lookup_alter_eq.
        rewrite added_to_replicate, decide_True by done. done.
      * destruct (Hcells Hnd c Hc) as (-> & -> & ->).
        destruct (Hframe0 (cell_index nj nk c)) as (-> & -> & ->); [|done].
        intros Heq. apply Hnotin. rewrite Heq.
        apply list_elem_of_fmap. by exists c.
Qed.

Lemma elem_of_grid_cells ni nj nk c :
  c ∈ grid_cells ni nj nk ↔ in_grid ni nj nk c.1.1 c.1.2 c.2.
Proof.
  destruct c as [[i j] k]. unfold grid_cells, in_grid.
  rewrite elem_of_box3, !elem_of_seqZ. simpl. lia.
Qed.

Lemma NoDup_box3 l1 l2 l3 :
  NoDup l1 → NoDup l2 → NoDup l3 → NoDup (box3 l1 l2 l3).
Proof.
  intros H1 H2 H3. unfold box3. apply NoDup_bind; [| |done].
  - intros a a' [[x y] z] _ _ Hel Hel'.
    apply list_elem_of_bind in Hel as (b & Hel & _).
    apply list_elem_of_bind in Hel' as (b' & Hel' & _).
    apply list_elem_of_fmap in Hel as (c & [= -> -> ->] & _).
    by apply list_elem_of_fmap in Hel' as (c' & [= -> _ _] & _).
  - intros a _. apply NoDup_bind; [| |done].
    + intros b b' [[x y] z] _ _ Hel Hel'.
      apply list_elem_of_fmap in Hel as (c & [= -> -> ->] & _).
      by apply list_elem_of_fmap in Hel' as (c' & [= -> _] & _).
    + intros b _. apply NoDup_fmap_2; [|done]. by intros c c' [= ->].
Qed.

Lemma NoDup_grid_indices ni nj nk :
  grid_ok ni nj nk → NoDup (cell_index nj nk <$> grid_cells ni nj nk).
Proof.
  intros Hok. apply NoDup_fmap_2_strong.
  - intros [[i j] k] [[i' j'] k'] Hc Hc' Heq.
    apply elem_of_grid_cells in Hc, Hc'. simpl in Hc, Hc'.
    unfold cell_index in Heq. simpl in Heq.
    pose proof (flat_index_bound _ _ _ _ _ _ Hc).
    pose proof (flat_index_bound _ _ _ _ _ _ Hc').
    destruct (flat_index_inj ni nj nk i j k i' j' k') as (-> & -> & ->);
      [done..|lia|done].
  - apply NoDup_box3; apply NoDup_seqZ.
Qed.

Lemma iter_add_value (h : nat) (v a0 : Q) :
  (Nat.iter h (λ a, a + v) a0 == a0 + inject_Z (Z.of_nat h) * v)%Q.
Proof.
  induction h as [|h IH].
  - simpl. ring.
  - change (Nat.iter (S h) (λ a, a + v) a0)%Q
      with (Nat.iter h (λ a, a + v) a0 + v)%Q.
    rewrite IH, inject_Z_S. ring.
Qed.

Lemma iter_add_one (h : nat) (c0 : Q) :
  (Nat.iter h (λ c, c + 1) c0 == c0 + inject_Z (Z.of_nat h))%Q.
Proof. rewrite (iter_add_value h 1 c0). ring. Qed.

(** What a returned call has done to every cell of the grid, in terms of
    the cell's query result. *)
Lemma griddata_cells known_coords known_values iv cc ni nj nk st :
  nd_shape iv = (ni, nj, nk) →
  grid_ok ni nj nk →
  length (nd_data iv) = Z.to_nat (ni * nj * nk) →
  length (nd_data cc) = Z.to_nat (ni * nj * nk) →
  (length known_coords ≤ length known_values)%nat →
  cnaturalneighbor_griddata known_coords known_values iv cc = Returned st →
  ∀ c, in_grid ni nj nk c.1.1 c.1.2 c.2 →
    query_ok (index_known (zip known_coords known_values)) c
    ∧ ∃ a0 c0,
        nd_data iv !! cell_index nj nk c = Some a0
        ∧ nd_data cc !! cell_index nj nk c = Some c0
        ∧ contribution_counter st !! cell_index nj nk c
          = Some (Nat.iter
                    (cell_hits (index_known (zip known_coords known_values))
                       ni nj nk c)
                    (λ x, x + 1)%Q c0)
        ∧ interp_values st !! cell_index nj nk c
          = Some (normalized
                    (Nat.iter
                       (cell_hits (index_known (zip known_coords known_values))
                          ni nj nk c)
                       (λ a, a + cell_value
                                   (index_known (zip known_coords known_values))
                                   c)%Q a0)
                    (Nat.iter
                       (cell_hits (index_known (zip known_coords known_values))
                          ni nj nk c)
                       (λ x, x + 1)%Q c0))
        ∧ added_to (cell_index nj nk c) (trace st)
          = replicate
              (cell_hits (index_known (zip known_coords known_values))
                 ni nj nk c)
              (cell_value (index_known (zip known_coords known_values)) c).
Proof.
  intros Hshape Hok Hiv Hcc Hlen. unfold cnaturalneighbor_griddata.
  rewrite load_known_zip by done. cbn [mbind outcome_bind]. rewrite Hshape.
  set (tree := index_known (zip known_coords known_values)).
  set (st0 := {| interp_values := nd_data iv;
                 contribution_counter := nd_data cc; trace := [] |}).
  rewrite scatter_pass_cells.
  destruct (for_each (grid_cells ni nj nk) _ st0) as [st1|] eqn:Hscatter;
    [|done].
  cbn [mbind outcome_bind].
  assert (∀ c, c ∈ grid_cells ni nj nk →
            (cell_index nj nk c < Z.to_nat (ni * nj * nk))%nat) as Hidx.
  { intros c Hc. apply elem_of_grid_cells in Hc.
    by apply flat_index_in_extent. }
  destruct (scatter_cells_effect tree ni nj nk (grid_cells ni nj nk) st0 st1)
    as (Hoks & Hla & Hlc & _ & Hcells); [|done|].
  { intros c Hc. simpl. rewrite Hiv, Hcc. split; by apply Hidx. }
  specialize (Hcells (NoDup_grid_indices ni nj nk Hok)).
  destruct (normalize_pass_run ni nj nk st1 Hok)
    as (st2 & -> & Hc2 & Ha2 & Ht2); [simpl in *; congruence..|].
  intros [= <-] c Hin.
  assert (c ∈ grid_cells ni nj nk) as Hc by (by apply elem_of_grid_cells).
  split; [by apply Hoks|].
  destruct (Hcells c Hc) as (Ha1 & Hc1 & Ht1). simpl in Ha1, Hc1, Ht1.
  destruct (lookup_lt_is_Some_2 (nd_data iv) (cell_index nj nk c))
    as [a0 Ha0]; [rewrite Hiv; by apply Hidx|].
  destruct (lookup_lt_is_Some_2 (nd_data cc) (cell_index nj nk c))
    as [c0 Hc0]; [rewrite Hcc; by apply Hidx|].
  rewrite Ha0 in Ha1. rewrite Hc0 in Hc1.
  exists a0, c0. split_and!; try done.
  - by rewrite Hc2.
  - rewrite Ha2, lookup_zip_with, Ha1. simpl. by rewrite Hc1.
  - rewrite Ht2, added_to_app, added_to_normalize_events, Ht1.
    simpl. by rewrite app_nil_r.
Qed.

(** X7: the scan of one cell in closed form. It faults when the query has
    no result or the radius does not fit an [int]; otherwise it returns
    after adding the value of the nearest known point to the cell's own
    accumulator and 1 to the cell's own counter once per candidate of the
    box that passes the distance test, leaving every other position of both
    buffers as it was. *)
Theorem scatter_cell_closed_form tree ni nj nk i j k st :
  (Z.to_nat (flat_index nj nk i j k) < length (interp_values st))%nat →
  (Z.to_nat (flat_index nj nk i j k) < length (contribution_counter st))%nat →
  scatter_cell tree ni nj nk i j k st
  = match nearest_iterative tree (pt i j k) with
    | None => Fault NoData
    | Some nn =>
        if INT_MAX <? ceil_sqrt (nn_distance nn) then Fault IntConversion
        else
          let hits := roi_hits ni nj nk i j k (nn_distance nn) in
          let indice := Z.to_nat (flat_index nj nk i j k) in
          Returned
            {| interp_values :=
                 alter (Nat.iter hits (λ a, a + nn_value nn)%Q) indice
                   (interp_values st);
               contribution_counter :=
                 alter (Nat.iter hits (λ c, c + 1)%Q) indice
                   (contribution_counter st);
               trace := replicate hits (Accum indice (nn_value nn))
                        ++ trace st |}
    end.
Proof.
  intros Ha Hc.
  destruct (nearest_iterative tree (pt i j k)) as [nn|] eqn:Hnn.
  - destruct (Z.ltb_spec INT_MAX (ceil_sqrt (nn_distance nn))) as [Hr|Hr].
    + unfold scatter_cell.
      change (mkPoint (inject_Z i) (inject_Z j) (inject_Z k)) with (pt i j k).
      rewrite Hnn. cbv zeta.
      by destruct (Z.ltb_spec INT_MAX (ceil_sqrt (nn_distance nn))); [|lia].
    + by apply scatter_cell_effect.
  - unfold scatter_cell.
    change (mkPoint (inject_Z i) (inject_Z j) (inject_Z k)) with (pt i j k).
    by rewrite Hnn.
Qed.

Lemma scatter_cell_closed_form_witness :
  scatter_cell (index_known [(pt 0 0 0, 10%Q)]) 2 1 1 1 0 0
    (mkBuffers [0; 0]%Q [0; 0]%Q [])
  = Returned (mkBuffers [0; 0 + 10 + 10]%Q [0; 0 + 1 + 1]%Q
                [Accum 1 10; Accum 1 10]).
Proof.
  rewrite (scatter_cell_closed_form (index_known [(pt 0 0 0, 10%Q)])
             2 1 1 1 0 0 (mkBuffers [0; 0]%Q [0; 0]%Q []));
    [reflexivity|vm_compute; lia|vm_compute; lia].
Defined.

(** X8: what a returned call leaves in every cell of the grid. With [nn]
    the result of the cell's query, [hits] the number of candidates of the
    cell's box that pass the distance test, and [a0], [c0] the values the
    caller put at the cell's position: the counter is [c0] incremented
    [hits] times, the values added to the cell are [hits] copies of the
    value of [nn], and the accumulator is [a0] plus these additions, divided
    by the counter unless the counter is zero. *)
Theorem griddata_cell_result known_coords known_values iv cc ni nj nk st
    i j k :
  nd_shape iv = (ni, nj, nk) →
  grid_ok ni nj nk →
  length (nd_data iv) = Z.to_nat (ni * nj * nk) →
  length (nd_data cc) = Z.to_nat (ni * nj * nk) →
  (length known_coords ≤ length known_values)%nat →
  cnaturalneighbor_griddata known_coords known_values iv cc = Returned st →
  in_grid ni nj nk i j k →
  ∃ nn a0 c0,
    nearest_iterative (index_known (zip known_coords known_values))
      (pt i j k) = Some nn
    ∧ ceil_sqrt (nn_distance nn) ≤ INT_MAX
    ∧ nd_data iv !! Z.to_nat (flat_index nj nk i j k) = Some a0
    ∧ nd_data cc !! Z.to_nat (flat_index nj nk i j k) = Some c0
    ∧ contribution_counter st !! Z.to_nat (flat_index nj nk i j k)
      = Some (Nat.iter (roi_hits ni nj nk i j k (nn_distance nn))
                (λ c, c + 1)%Q c0)
    ∧ interp_values st !! Z.to_nat (flat_index nj nk i j k)
      = Some (normalized
                (Nat.iter (roi_hits ni nj nk i j k (nn_distance nn))
                   (λ a, a + nn_value nn)%Q a0)
                (Nat.iter (roi_hits ni nj nk i j k (nn_distance nn))
                   (λ c, c + 1)%Q c0))
    ∧ added_to (Z.to_nat (flat_index nj nk i j k)) (trace st)
      = replicate (roi_hits ni nj nk i j k (nn_distance nn)) (nn_value nn).
Proof.
  intros Hshape Hok Hiv Hcc Hlen Hrun Hin.
  destruct (griddata_cells _ _ _ _ _ _ _ _ Hshape Hok Hiv Hcc Hlen Hrun
              (i, j, k) Hin)
    as ((nn & Hnn & Hr) & a0 & c0 & Ha0 & Hc0 & Hc & Ha & Ht).
  unfold cell_hits, cell_value, cell_index in *. simpl in *.
  rewrite Hnn in Hc, Ha, Ht. by exists nn, a0, c0.
Qed.

Lemma griddata_cell_result_witness :
  ∃ st nn a0 c0,
    cnaturalneighbor_griddata [pt 0 0 0] [10%Q] (zeros 2 1 1) (zeros 2 1 1)
    = Returned st
    ∧ nearest_iterative (index_known (zip [pt 0 0 0] [10%Q])) (pt 1 0 0)
      = Some nn
    ∧ nd_data (zeros 2 1 1) !! Z.to_nat (flat_index 1 1 1 0 0) = Some a0
    ∧ nd_data (zeros 2 1 1) !! Z.to_nat (flat_index 1 1 1 0 0) = Some c0
    ∧ interp_values st !! Z.to_nat (flat_index 1 1 1 0 0)
      = Some (normalized
                (Nat.iter (roi_hits 2 1 1 1 0 0 (nn_distance nn))
                   (λ a, a + nn_value nn)%Q a0)
                (Nat.iter (roi_hits 2 1 1 1 0 0 (nn_distance nn))
                   (λ c, c + 1)%Q c0)).
Proof.
  destruct (cnaturalneighbor_griddata [pt 0 0 0] [10%Q]
              (zeros 2 1 1) (zeros 2 1 1)) as [st|] eqn:Hrun;
    [|by vm_compute in Hrun].
  exists st.
  destruct (griddata_cell_result [pt 0 0 0] [10%Q] (zeros 2 1 1) (zeros 2 1 1)
              2 1 1 st 1 0 0)
    as (nn & a0 & c0 & Hnn & _ & Ha0 & Hc0 & _ & Ha & _).
  - reflexivity.
  - unfold grid_ok, SIZE_MAX. lia.
  - reflexivity.
  - reflexivity.
  - simpl. lia.
  - exact Hrun.
  - unfold in_grid. lia.
  - exists nn, a0, c0. by split_and!.
Defined.



(** X10: with a zero-filled counter buffer, a cell whose counter is still
    zero after a returned call holds exactly the value the caller put in
    the accumulator: the call never changes the fill value of a cell it has
    not counted. *)
Theorem griddata_uncounted_cell_kept known_coords known_values iv cc
    ni nj nk st i j k c :
  nd_shape iv = (ni, nj, nk) →
  grid_ok ni nj nk →
  length (nd_data iv) = Z.to_nat (ni * nj * nk) →
  length (nd_data cc) = Z.to_nat (ni * nj * nk) →
  Forall (λ c, c == 0)%Q (nd_data cc) →
  (length known_coords ≤ length known_values)%nat →
  cnaturalneighbor_griddata known_coords known_values iv cc = Returned st →
  in_grid ni nj nk i j k →
  contribution_counter st !! Z.to_nat (flat_index nj nk i j k) = Some c →
  (c == 0)%Q →
  interp_values st !! Z.to_nat (flat_index nj nk i j k)
  = nd_data iv !! Z.to_nat (flat_index nj nk i j k)
  ∧ added_to (Z.to_nat (flat_index nj nk i j k)) (trace st) = [].
Proof.
  intros Hshape Hok Hiv Hcc Hzc Hlen Hrun Hin Hc Hz.
  destruct (griddata_cells _ _ _ _ _ _ _ _ Hshape Hok Hiv Hcc Hlen Hrun
              (i, j, k) Hin)
    as (_ & a0 & c0 & Ha0 & Hc0 & Hc' & Ha & Ht).
  unfold cell_index in *. simpl in *.
  rewrite Forall_lookup in Hzc. pose proof (Hzc _ _ Hc0) as Hc0z.
  simpl in Hc0z.
  set (h := cell_hits (index_known (zip known_coords known_values))
              ni nj nk (i, j, k)) in *.
  assert (h = 0%nat) as Hh.
  { rewrite Hc' in Hc. injection Hc as <-.
    rewrite iter_add_one, Hc0z, Qplus_0_l in Hz.
    destruct h as [|h]; [done|]. rewrite inject_Z_S in Hz.
    assert (0 <= inject_Z (Z.of_nat h))%Q
      by (change 0%Q with (inject_Z 0); rewrite <- Zle_Qle; lia).
    lra. }
  rewrite Hh in Ha, Ht. simpl in Ha, Ht. split; [|done].
  rewrite Ha, Ha0. unfold normalized.
  destruct (Qeq_bool c0 0) eqn:Hb; [done|].
  apply Qeq_bool_neq in Hb. done.
Qed.

Lemma griddata_uncounted_cell_kept_witness :
  ∃ st,
    cnaturalneighbor_griddata [pt 1 0 0] [7%Q]
      (mkArray (3, 1, 1) [5; 5; 5]%Q) (zeros 3 1 1) = Returned st
    ∧ interp_values st !! Z.to_nat (flat_index 1 1 0 0 0) = Some 5%Q.
Proof.
  destruct (cnaturalneighbor_griddata [pt 1 0 0] [7%Q]
              (mkArray (3, 1, 1) [5; 5; 5]%Q) (zeros 3 1 1))
    as [st|] eqn:Hrun; [|by vm_compute in Hrun].
  exists st. split; [done|].
  destruct (griddata_uncounted_cell_kept [pt 1 0 0] [7%Q]
              (mkArray (3, 1, 1) [5; 5; 5]%Q) (zeros 3 1 1)
              3 1 1 st 0 0 0 0%Q) as [-> _].
  - reflexivity.
  - unfold grid_ok, SIZE_MAX. lia.
  - reflexivity.
  - reflexivity.
  - repeat constructor.
  - simpl. lia.
  - exact Hrun.
  - unfold in_grid. lia.
  - vm_compute in Hrun. injection Hrun as <-. reflexivity.
  - reflexivity.
  - reflexivity.
Defined.

(** ** Which cells a scan counts *)

Lemma own_index_in_box x roi_radius n :
  0 ≤ x < n → n ≤ 2 ^ 63 → 0 ≤ roi_radius ≤ INT_MAX →
  roi_radius ≤ x ∨ x = n - 1 →
  x ∈ seqZ (roi_min x roi_radius n)
        (roi_max x roi_radius n + 1 - roi_min x roi_radius n).
Proof.
  intros Hx Hn Hr Hcase. apply elem_of_seqZ.
  rewrite roi_max_exact by lia.
  destruct (Z.le_gt_cases roi_radius x).
  - rewrite roi_min_exact by lia. lia.
  - rewrite roi_min_underflow by lia. lia.
Qed.

Lemma empty_box_on_axis x roi_radius n :
  0 ≤ x < roi_radius → roi_radius ≤ INT_MAX → x + roi_radius < n - 1 →
  n ≤ 2 ^ 63 →
  seqZ (roi_min x roi_radius n)
       (roi_max x roi_radius n + 1 - roi_min x roi_radius n) = [].
Proof.
  intros Hx Hr Hlt Hn.
  rewrite roi_min_underflow, roi_max_exact by lia.
  apply seqZ_nil. lia.
Qed.

Lemma box3_nil l1 l2 l3 :
  l1 = [] ∨ l2 = [] ∨ l3 = [] → box3 l1 l2 l3 = [].
Proof.
  unfold box3. intros [->|[->| ->]]; [done| |].
  - by induction l1.
  - induction l1 as [|a l1 IH]; [done|].
    cbn [mbind list_bind]. rewrite IH, app_nil_r.
    clear IH. induction l2 as [|b l2 IH]; [done|].
    cbn [mbind list_bind]. by rewrite IH.
Qed.

Lemma delta_sq_diag x : delta_sq x x = 0.
Proof. unfold delta_sq. by rewrite Z.sub_diag. Qed.

(** X11: a cell whose radius does not exceed its index on an axis, or that
    sits on the last index of that axis, for each of the three axes, is a
    candidate of its own box and passes the distance test: its scan makes
    at least one addition. *)
Theorem roi_hits_own_cell ni nj nk i j k d :
  (0 <= d)%Q →
  in_grid ni nj nk i j k →
  ni ≤ 2 ^ 63 → nj ≤ 2 ^ 63 → nk ≤ 2 ^ 63 →
  ceil_sqrt d ≤ INT_MAX →
  ceil_sqrt d ≤ i ∨ i = ni - 1 →
  ceil_sqrt d ≤ j ∨ j = nj - 1 →
  ceil_sqrt d ≤ k ∨ k = nk - 1 →
  (1 ≤ roi_hits ni nj nk i j k d)%nat.
Proof.
  intros Hd (Hi & Hj & Hk) Hni Hnj Hnk Hr Hci Hcj Hck.
  destruct (ceil_sqrt_spec d) as (Hr0 & _).
  unfold roi_hits.
  assert ((i, j, k)
          ∈ filter (λ c, Is_true (in_sphere i j k d c))
              (roi_candidates ni nj nk i j k (ceil_sqrt d))) as Hel.
  { apply list_elem_of_filter. split.
    - unfold in_sphere. simpl. rewrite !delta_sq_diag.
      apply Is_true_true, Qle_bool_iff. by rewrite !Qplus_0_l.
    - unfold roi_candidates. apply elem_of_box3.
      split_and!; apply own_index_in_box; lia. }
  destruct (filter _ _); [by apply elem_of_nil in Hel|simpl; lia].
Qed.

Lemma roi_hits_own_cell_witness : (1 ≤ roi_hits 6 6 6 2 5 3 4)%nat.
Proof.
  apply (roi_hits_own_cell 6 6 6 2 5 3 4).
  - done.
  - unfold in_grid. lia.
  - lia.
  - lia.
  - lia.
  - by vm_compute.
  - left. by vm_compute.
  - right. lia.
  - left. by vm_compute.
Defined.

(** X12: a cell whose radius exceeds its index on some axis while
    [index + radius] stays below the last index of that axis has an empty
    box: its scan makes no addition at all, so the cell is never
    counted. *)
Theorem roi_hits_empty_box ni nj nk i j k d :
  in_grid ni nj nk i j k →
  ni ≤ 2 ^ 63 → nj ≤ 2 ^ 63 → nk ≤ 2 ^ 63 →
  ceil_sqrt d ≤ INT_MAX →
  (i < ceil_sqrt d ∧ i + ceil_sqrt d < ni - 1)
  ∨ (j < ceil_sqrt d ∧ j + ceil_sqrt d < nj - 1)
  ∨ (k < ceil_sqrt d ∧ k + ceil_sqrt d < nk - 1) →
  roi_hits ni nj nk i j k d = 0%nat.
Proof.
  intros (Hi & Hj & Hk) Hni Hnj Hnk Hr Hcase.
  unfold roi_hits, roi_candidates.
  rewrite box3_nil; [done|].
  destruct Hcase as [[? ?]|[[? ?]|[? ?]]];
    [left|right; left|right; right]; apply empty_box_on_axis; lia.
Qed.

Lemma roi_hits_empty_box_witness : roi_hits 3 1 1 0 0 0 1 = 0%nat.
Proof.
  apply (roi_hits_empty_box 3 1 1 0 0 0 1).
  - unfold in_grid. lia.
  - lia.
  - lia.
  - lia.
  - by vm_compute.
  - left. split; by vm_compute.
Defined.

(** ** When the call returns *)

Lemma normalize_pass_cells ni nj nk st :
  normalize_pass ni nj nk st
  = for_each (grid_cells ni nj nk)
      (λ c, normalize_cell (flat_index nj nk c.1.1 c.1.2 c.2)) st.
Proof.
  unfold normalize_pass, for_below, grid_cells.
  by rewrite (for_each_box3 _ _ _
                (λ i j k, normalize_cell (flat_index nj nk i j k))).
Qed.

Lemma scatter_pass_returns tree ni nj nk st :
  length (interp_values st) = Z.to_nat (ni * nj * nk) →
  length (contribution_counter st) = Z.to_nat (ni * nj * nk) →
  (∀ i j k, in_grid ni nj nk i j k → query_ok tree (i, j, k)) →
  ∃ st', scatter_pass tree ni nj nk st = Returned st'
         ∧ length (interp_values st') = Z.to_nat (ni * nj * nk)
         ∧ length (contribution_counter st') = Z.to_nat (ni * nj * nk).
Proof.
  intros Ha Hc Hoks. rewrite scatter_pass_cells.
  pose proof (for_each_post (grid_cells ni nj nk)
                (λ c, scatter_cell tree ni nj nk c.1.1 c.1.2 c.2)
                (λ s, length (interp_values s) = Z.to_nat (ni * nj * nk)
                      ∧ length (contribution_counter s)
                        = Z.to_nat (ni * nj * nk))
                (λ _, False) st) as Hpost.
  destruct (for_each _ _ st) as [st'|].
  - exists st'. split; [done|]. apply Hpost; [|done].
    intros [[i j] k] s Hcell [Hsa Hsc]. apply elem_of_grid_cells in Hcell.
    simpl in Hcell. destruct (Hoks i j k Hcell) as (nn & Hnn & Hr).
    pose proof (flat_index_in_extent ni nj nk i j k Hcell).
    simpl. rewrite (scatter_cell_effect _ _ _ _ _ _ _ nn) by (done || lia).
    simpl. by rewrite !length_alter.
  - exfalso. apply Hpost; [|done].
    intros [[i j] k] s Hcell [Hsa Hsc]. apply elem_of_grid_cells in Hcell.
    simpl in Hcell. destruct (Hoks i j k Hcell) as (nn & Hnn & Hr).
    pose proof (flat_index_in_extent ni nj nk i j k Hcell).
    simpl. rewrite (scatter_cell_effect _ _ _ _ _ _ _ nn) by (done || lia).
    simpl. by rewrite !length_alter.
Qed.

(** X13: with buffers of the size of the grid and at least as many known
    values as coordinate rows, the call returns exactly when the query of
    every cell of the grid has a result whose radius fits an [int]; these
    are the only ways the scatter and normalisation loops can fail. *)
Theorem griddata_returns_iff known_coords known_values iv cc ni nj nk :
  nd_shape iv = (ni, nj, nk) →
  grid_ok ni nj nk →
  length (nd_data iv) = Z.to_nat (ni * nj * nk) →
  length (nd_data cc) = Z.to_nat (ni * nj * nk) →
  (length known_coords ≤ length known_values)%nat →
  (∃ st, cnaturalneighbor_griddata known_coords known_values iv cc
         = Returned st)
  ↔ (∀ i j k, in_grid ni nj nk i j k →
       query_ok (index_known (zip known_coords known_values)) (i, j, k)).
Proof.
  intros Hshape Hok Hiv Hcc Hlen. split.
  - intros [st Hrun] i j k Hin.
    by destruct (griddata_cells _ _ _ _ _ _ _ _ Hshape Hok Hiv Hcc Hlen Hrun
                   (i, j, k) Hin) as [? _].
  - intros Hoks. unfold cnaturalneighbor_griddata.
    rewrite load_known_zip by done. cbn [mbind outcome_bind]. rewrite Hshape.
    destruct (scatter_pass_returns
                (index_known (zip known_coords known_values)) ni nj nk
                {| interp_values := nd_data iv;
                   contribution_counter := nd_data cc; trace := [] |})
      as (st1 & -> & Ha1 & Hc1); [done..|].
    cbn [mbind outcome_bind].
    destruct (normalize_pass_run ni nj nk st1 Hok Ha1 Hc1) as (st2 & -> & _).
    by exists st2.
Qed.

Lemma griddata_returns_iff_witness :
  (∃ st, cnaturalneighbor_griddata [pt 0 0 0] [10%Q]
           (zeros 2 1 1) (zeros 2 1 1) = Returned st)
  ↔ (∀ i j k, in_grid 2 1 1 i j k →
       query_ok (index_known (zip [pt 0 0 0] [10%Q])) (i, j, k)).
Proof.
  apply (griddata_returns_iff [pt 0 0 0] [10%Q] (zeros 2 1 1) (zeros 2 1 1)
           2 1 1).
  - reflexivity.
  - unfold grid_ok, SIZE_MAX. lia.
  - reflexivity.
  - reflexivity.
  - simpl. lia.
Defined.

(** X14: when a dimension of the grid is zero, the call returns without
    any query and without any write, whatever the known points are (also
    when there are none): both buffers are returned as the caller gave
    them. *)
Theorem griddata_degenerate_grid known_coords known_values iv cc ni nj nk :
  nd_shape iv = (ni, nj, nk) →
  ni = 0 ∨ nj = 0 ∨ nk = 0 →
  (length known_coords ≤ length known_values)%nat →
  cnaturalneighbor_griddata known_coords known_values iv cc
  = Returned {| interp_values := nd_data iv;
                contribution_counter := nd_data cc;
                trace := [] |}.
Proof.
  intros Hshape Hzero Hlen. unfold cnaturalneighbor_griddata.
  rewrite load_known_zip by done. cbn [mbind outcome_bind]. rewrite Hshape.
  rewrite scatter_pass_cells.
  assert (grid_cells ni nj nk = []) as Hcells.
  { unfold grid_cells. apply box3_nil.
    destruct Hzero as [->|[->| ->]]; auto. }
  rewrite Hcells. cbn [for_each mbind outcome_bind].
  by rewrite normalize_pass_cells, Hcells.
Qed.

Lemma griddata_degenerate_grid_witness :
  cnaturalneighbor_griddata [] [] (mkArray (4, 0, 3) []) (mkArray (4, 0, 3) [])
  = Returned {| interp_values := []; contribution_counter := [];
                trace := [] |}.
Proof.
  apply (griddata_degenerate_grid [] [] (mkArray (4, 0, 3) [])
           (mkArray (4, 0, 3) []) 4 0 3).
  - reflexivity.
  - right. by left.
  - simpl. lia.
Defined.

(** ** The copy of the known points *)

Lemma load_known_prefix (known_coords : list Point) (known_values : list Q)
    len m (vec : list (Point * Q)) :
  (m + len ≤ length known_coords)%nat →
  (m + len ≤ length known_values)%nat →
  for_each (seq m len)
    (λ i (vec : list (Point * Q)),
       match known_coords !! i, known_values !! i with
       | Some p, Some v => Returned (vec ++ [(p, v)])
       | _, _ => Fault OutOfBounds
       end) vec
  = Returned (vec ++ take len (drop m (zip known_coords known_values))).
Proof.
  revert m vec. induction len as [|len IH]; intros m vec Hm Hlen; simpl.
  - by rewrite app_nil_r.
  - destruct (lookup_lt_is_Some_2 known_coords m ltac:(lia)) as [p Hp].
    destruct (lookup_lt_is_Some_2 known_values m ltac:(lia)) as [v Hv].
    rewrite Hp, Hv. simpl. rewrite IH by lia.
    assert (zip known_coords known_values !! m = Some (p, v)) as Hz.
    { apply lookup_zip_with_Some. by exists p, v. }
    rewrite (drop_S _ _ _ Hz). simpl. by rewrite <- app_assoc.
Qed.

Lemma load_known_short known_coords known_values :
  (length known_values < length known_coords)%nat →
  load_known known_coords known_values = Fault OutOfBounds.
Proof.
  intros Hlt. unfold load_known.
  replace (length known_coords)
    with (length known_values
          + S (length known_coords - S (length known_values)))%nat by lia.
  rewrite seq_app, for_each_app, load_known_prefix by lia.
  cbn [mbind outcome_bind seq for_each]. rewrite Nat.add_0_l.
  destruct (lookup_lt_is_Some_2 known_coords (length known_values)
              ltac:(lia)) as [p ->].
  by rewrite (lookup_ge_None_2 known_values) by lia.
Qed.

(** X15: the copy loop pairs the coordinate rows with the values of the
    same positions, in order, and ignores the values beyond the last row;
    when there are fewer values than rows it reads the values out of
    bounds. *)
Theorem load_known_closed_form known_coords known_values :
  load_known known_coords known_values
  = if decide (length known_coords ≤ length known_values)%nat
    then Returned (zip known_coords known_values)
    else Fault OutOfBounds.
Proof.
  destruct (decide _).
  - by apply load_known_zip.
  - apply load_known_short. lia.
Qed.

(** ** Normalisation of an uncounted grid *)

(** X16: when every counter is zero the normalisation loops divide nothing:
    they return the state they were given, accumulators and trace
    included. *)
Theorem normalize_pass_zero_counters ni nj nk st :
  grid_ok ni nj nk →
  length (interp_values st) = Z.to_nat (ni * nj * nk) →
  length (contribution_counter st) = Z.to_nat (ni * nj * nk) →
  Forall (λ c, c == 0)%Q (contribution_counter st) →
  normalize_pass ni nj nk st = Returned st.
Proof.
  intros Hok Ha Hc Hzero.
  destruct (normalize_pass_run ni nj nk st Hok Ha Hc)
    as (st' & -> & Hc' & Ha' & Ht').
  f_equal. destruct st as [acc cnt tr], st' as [acc' cnt' tr'].
  simpl in *. subst cnt'. f_equal.
  - rewrite Ha'. apply list_eq. intros n. rewrite lookup_zip_with.
    destruct (acc !! n) as [a|] eqn:Han; [|done]. simpl.
    destruct (lookup_lt_is_Some_2 cnt n) as [c Hcn].
    { apply lookup_lt_Some in Han. lia. }
    rewrite Hcn. simpl. unfold normalized.
    rewrite Forall_lookup in Hzero. pose proof (Hzero n c Hcn) as Hz.
    simpl in Hz. apply Qeq_bool_iff in Hz. by rewrite Hz.
  - assert (∀ l, filter (λ n, Is_true (nonzero_at cnt n)) l = []) as Hfil;
      [|by rewrite Ht'; unfold normalize_events; rewrite Hfil].
    induction l as [|n l IH]; [done|]. rewrite filter_cons, IH.
    assert (nonzero_at cnt n = false) as ->; [|done].
    unfold nonzero_at. destruct (cnt !! n) as [c|] eqn:Hcn; [|done].
    rewrite Forall_lookup in Hzero. pose proof (Hzero n c Hcn) as Hz.
    simpl in Hz. apply Qeq_bool_iff in Hz. by rewrite Hz.
Qed.

Lemma normalize_pass_zero_counters_witness :
  normalize_pass 2 1 1 (mkBuffers [3; 4]%Q [0; 0]%Q [])
  = Returned (mkBuffers [3; 4]%Q [0; 0]%Q []).
Proof.
  apply (normalize_pass_zero_counters 2 1 1 (mkBuffers [3; 4]%Q [0; 0]%Q [])).
  - unfold grid_ok, SIZE_MAX. lia.
  - reflexivity.
  - reflexivity.
  - repeat constructor.
Defined.
